(** * S1Interval: closed intervals on the unit circle

    A shallow embedding of [src/s2/s1interval.cc].  A C++ [double] is a
    primitive binary64 [float]: the operators below are the IEEE-754
    operations the compiled code performs (round to nearest, ties to even),
    and a comparison that involves a NaN is false, as in C++. *)

From Stdlib Require Import ZArith Bool Lia Floats.

Local Open Scope float_scope.

(** ** Numeric constants and operators of the source *)

(** [M_PI] of <cmath>: the double nearest to pi, [0x400921FB54442D18]. *)
Definition M_PI : float := 0x1.921fb54442d18p+1.

(** C++ writes [a >= b], [a > b] and [a != b]; primitive floats provide
    [<=?], [<?] and [=?], so the operands are swapped. *)
Definition geb (a b : float) : bool := b <=? a.
Definition gtb (a b : float) : bool := b <? a.
Definition neqb (a b : float) : bool := negb (a =? b).

Infix ">=?" := geb (at level 70, no associativity) : float_scope.
Infix ">?" := gtb (at level 70, no associativity) : float_scope.
Infix "!=?" := neqb (at level 70, no associativity) : float_scope.

Definition fabs (x : float) : float := abs x.

(** [std::max(a, b)] is [(a < b) ? b : a]. *)
Definition max (a b : float) : float := if a <? b then b else a.

(** ** Debug checks

    [S2_DCHECK] aborts a debug build when its condition is false.  A
    function that contains one returns [None] when the check fails. *)
Definition DCHECK (c : bool) : option unit := if c then Some tt else None.

Definition bind {A B : Type} (m : option A) (k : A -> option B) : option B :=
  match m with
  | Some a => k a
  | None => None
  end.

Notation "x <- m ;; k" := (bind m (fun x => k))
  (at level 61, m at next level, right associativity).
Notation "m ;;; k" := (bind m (fun _ => k))
  (at level 61, right associativity).

(** ** The interval record *)

(** Modelled from the spec: the class [S1Interval] is declared in
    s2/s1interval.h, which is not among the sources.  Spec, section 3:
    the sole attributes are [lo] and [hi]. *)
Record S1Interval : Type := mkS1Interval { lo : float; hi : float }.

(** Modelled from the spec: the trusted constructor
    [S1Interval(lo, hi, ARGS_CHECKED)] of s2/s1interval.h "skips
    validation": it stores its arguments unchanged. *)
Definition ARGS_CHECKED (l h : float) : S1Interval := mkS1Interval l h.

(** Modelled from the spec: the setters [set_lo] and [set_hi] of
    s2/s1interval.h, which overwrite one endpoint. *)
Definition set_lo (p : float) (i : S1Interval) : S1Interval := mkS1Interval p (hi i).
Definition set_hi (p : float) (i : S1Interval) : S1Interval := mkS1Interval (lo i) p.

(** Modelled from the spec: [Empty()] of s2/s1interval.h.  Spec, section
    3: "Empty ... canonical sentinel: lo = pi, hi = -pi". *)
Definition Empty : S1Interval := mkS1Interval M_PI (- M_PI).

(** Modelled from the spec: [Full()] of s2/s1interval.h.  Spec, section
    3: "Full ... canonical sentinel: lo = -pi, hi = pi". *)
Definition Full : S1Interval := mkS1Interval (- M_PI) M_PI.

(** Modelled from the spec: [is_empty()] of s2/s1interval.h, the test for
    the Empty sentinel. *)
Definition is_empty (i : S1Interval) : bool := (lo i =? M_PI) && (hi i =? - M_PI).

(** Modelled from the spec: [is_full()] of s2/s1interval.h, the test for
    the Full sentinel. *)
Definition is_full (i : S1Interval) : bool := (lo i =? - M_PI) && (hi i =? M_PI).

(** Modelled from the spec: [is_inverted()] of s2/s1interval.h.  Spec,
    section 3: "inverted is a derived property (lo > hi)"; the Empty
    sentinel is inverted. *)
Definition is_inverted (i : S1Interval) : bool := lo i >? hi i.

(** Modelled from the spec: [is_valid()] of s2/s1interval.h.  Spec,
    section 3: "every valid instance has lo in [-pi, pi] and hi in
    [-pi, pi]". *)
Definition is_valid (i : S1Interval) : bool :=
  (fabs (lo i) <=? M_PI) && (fabs (hi i) <=? M_PI).

(** Every point argument is first canonicalised:
    [if (p == -M_PI) p = M_PI;]. *)
Definition canonical (p : float) : float := if p =? - M_PI then M_PI else p.

(** ** Operations of s1interval.cc

    The functions follow the source line by line.  [Expanded] and
    [ApproxEquals] are left out: they rest on [remainder] of <cmath>,
    and no property below concerns them. *)

Definition FromPoint (p : float) : S1Interval :=
  let p := canonical p in ARGS_CHECKED p p.

Definition GetCenter (i : S1Interval) : float :=
  let center := 0.5 * (lo i + hi i) in
  if negb (is_inverted i) then center
  else if center <=? 0 then center + M_PI else center - M_PI.

Definition GetLength (i : S1Interval) : float :=
  let length := hi i - lo i in
  if length >=? 0 then length
  else
    let length := length + 2 * M_PI in
    if length >? 0 then length else -1.

Definition Complement (i : S1Interval) : S1Interval :=
  if lo i =? hi i then Full
  else ARGS_CHECKED (hi i) (lo i).

Definition GetComplementCenter (i : S1Interval) : float :=
  if lo i !=? hi i then GetCenter (Complement i)
  else if hi i <=? 0 then hi i + M_PI else hi i - M_PI.

Definition FastContains (i : S1Interval) (p : float) : bool :=
  if is_inverted i then ((p >=? lo i) || (p <=? hi i)) && negb (is_empty i)
  else (p >=? lo i) && (p <=? hi i).

(** [Contains(double p)]. *)
Definition Contains (i : S1Interval) (p : float) : option bool :=
  DCHECK (fabs p <=? M_PI) ;;;
  let p := canonical p in
  Some (FastContains i p).

Definition InteriorContains (i : S1Interval) (p : float) : option bool :=
  DCHECK (fabs p <=? M_PI) ;;;
  let p := canonical p in
  if is_inverted i then Some ((p >? lo i) || (p <? hi i))
  else Some (((p >? lo i) && (p <? hi i)) || is_full i).

(** [Contains(const S1Interval& y)]; the overload is named apart. *)
Definition ContainsInterval (i y : S1Interval) : bool :=
  if is_inverted i then
    if is_inverted y then (lo y >=? lo i) && (hi y <=? hi i)
    else ((lo y >=? lo i) || (hi y <=? hi i)) && negb (is_empty i)
  else
    if is_inverted y then is_full i || is_empty y
    else (lo y >=? lo i) && (hi y <=? hi i).

(** [InteriorContains(const S1Interval& y)]; the overload is named apart. *)
Definition InteriorContainsInterval (i y : S1Interval) : bool :=
  if is_inverted i then
    if negb (is_inverted y) then (lo y >? lo i) || (hi y <? hi i)
    else ((lo y >? lo i) && (hi y <? hi i)) || is_empty y
  else
    if is_inverted y then is_full i || is_empty y
    else ((lo y >? lo i) && (hi y <? hi i)) || is_full i.

Definition Intersects (i y : S1Interval) : bool :=
  if is_empty i || is_empty y then false
  else if is_inverted i then
    is_inverted y || (lo y <=? hi i) || (hi y >=? lo i)
  else
    if is_inverted y then (lo y <=? hi i) || (hi y >=? lo i)
    else (lo y <=? hi i) && (hi y >=? lo i).

Definition InteriorIntersects (i y : S1Interval) : bool :=
  if is_empty i || is_empty y || (lo i =? hi i) then false
  else if is_inverted i then
    is_inverted y || (lo y <? hi i) || (hi y >? lo i)
  else
    if is_inverted y then (lo y <? hi i) || (hi y >? lo i)
    else ((lo y <? hi i) && (hi y >? lo i)) || is_full i.

(** The distance from [a] to [b], counter-clockwise. *)
Definition PositiveDistance (a b : float) : float :=
  let d := b - a in
  if d >=? 0 then d
  else (b + M_PI) - (a - M_PI).

(** [AddPoint] updates the interval in place; the model returns the
    updated interval. *)
Definition AddPoint (i : S1Interval) (p : float) : option S1Interval :=
  DCHECK (fabs p <=? M_PI) ;;;
  let p := canonical p in
  if FastContains i p then Some i
  else if is_empty i then Some (set_lo p (set_hi p i))
  else
    let dlo := PositiveDistance p (lo i) in
    let dhi := PositiveDistance (hi i) p in
    if dlo <? dhi then Some (set_lo p i) else Some (set_hi p i).

Definition Project (i : S1Interval) (p : float) : option float :=
  DCHECK (negb (is_empty i)) ;;;
  DCHECK (fabs p <=? M_PI) ;;;
  let p := canonical p in
  if FastContains i p then Some p
  else
    let dlo := PositiveDistance p (lo i) in
    let dhi := PositiveDistance (hi i) p in
    Some (if dlo <? dhi then lo i else hi i).

Definition FromPointPair (p1 p2 : float) : option S1Interval :=
  DCHECK (fabs p1 <=? M_PI) ;;;
  DCHECK (fabs p2 <=? M_PI) ;;;
  let p1 := canonical p1 in
  let p2 := canonical p2 in
  if PositiveDistance p1 p2 <=? M_PI then Some (ARGS_CHECKED p1 p2)
  else Some (ARGS_CHECKED p2 p1).

Definition Union (i y : S1Interval) : S1Interval :=
  if is_empty y then i
  else if FastContains i (lo y) then
    if FastContains i (hi y) then
      if ContainsInterval i y then i else Full
    else ARGS_CHECKED (lo i) (hi y)
  else if FastContains i (hi y) then ARGS_CHECKED (lo y) (hi i)
  else if is_empty i || FastContains y (lo i) then y
  else
    let dlo := PositiveDistance (hi y) (lo i) in
    let dhi := PositiveDistance (hi i) (lo y) in
    if dlo <? dhi then ARGS_CHECKED (lo y) (hi i)
    else ARGS_CHECKED (lo i) (hi y).

(** [Intersection] holds a debug check on its last path only. *)
Definition Intersection (i y : S1Interval) : option S1Interval :=
  if is_empty y then Some Empty
  else if FastContains i (lo y) then
    if FastContains i (hi y) then
      if GetLength y <? GetLength i then Some y else Some i
    else Some (ARGS_CHECKED (lo y) (hi i))
  else if FastContains i (hi y) then Some (ARGS_CHECKED (lo i) (hi y))
  else if FastContains y (lo i) then Some i
  else
    DCHECK (negb (Intersects i y)) ;;;
    Some Empty.

Section Hausdorff.

(** The validated constructor [S1Interval(lo, hi)] is defined in
    s2/s1interval.h; it is taken as a parameter, [None] standing for a
    failed validity check. *)
Variable S1Interval_checked : float -> float -> option S1Interval.

Definition GetDirectedHausdorffDistance (i y : S1Interval) : option float :=
  if ContainsInterval y i then Some 0
  else if is_empty y then Some M_PI
  else
    let y_complement_center := GetComplementCenter y in
    c <- Contains i y_complement_center ;;
    if c then Some (PositiveDistance (hi y) y_complement_center)
    else
      a <- S1Interval_checked (hi y) y_complement_center ;;
      in_a <- Contains a (hi i) ;;
      let hi_hi := if in_a then PositiveDistance (hi y) (hi i) else 0 in
      b <- S1Interval_checked y_complement_center (lo y) ;;
      in_b <- Contains b (lo i) ;;
      let lo_lo := if in_b then PositiveDistance (lo i) (lo y) else 0 in
      DCHECK ((hi_hi >? 0) || (lo_lo >? 0)) ;;;
      Some (max hi_hi lo_lo).

End Hausdorff.

(** ** Canonical endpoints

    An interval is in normal form when [-pi] occurs as an endpoint only in
    the sentinels: as [lo] only together with [hi == pi] ([Full]), as [hi]
    only together with [lo == pi] ([Empty]).  The constructors and
    operations of the source keep this form, since every point argument is
    canonicalised before it becomes an endpoint. *)
Definition is_normalized (i : S1Interval) : bool :=
  negb ((lo i =? - M_PI) && (hi i !=? M_PI)) &&
  negb ((hi i =? - M_PI) && (lo i !=? M_PI)).

(** ** Boundary inputs

    The valid interval from [pi] to the double next above [-pi]: it is
    inverted and is not the [Empty] sentinel. *)
Definition next_to_empty : S1Interval := mkS1Interval M_PI (-0x1.921fb54442d17p+1).


(** ** The binary64 order, read on integers

    Every non-NaN binary64 value is mapped to an integer, its value scaled
    by [2 ^ 1074], so that the IEEE comparisons become comparisons of
    integers.  The map is justified from the specification of the primitive
    operations ([FloatAxioms]) and the fact that primitive floats are in
    canonical form. *)

Module Binary64.

Local Open Scope Z_scope.

Definition inf_rank : Z := 2 ^ 2098.

Definition rank (m : positive) (e : Z) : Z := Zpos m * 2 ^ (e - emin).

Definition SF2Z (f : spec_float) : Z :=
  match f with
  | S754_zero _ => 0
  | S754_nan => 0
  | S754_infinity s => cond_Zopp s inf_rank
  | S754_finite s m e => cond_Zopp s (rank m e)
  end.

Definition not_nan (f : spec_float) : Prop := f <> S754_nan.

Definition finite_or_zero (f : spec_float) : Prop :=
  match f with
  | S754_zero _ | S754_finite _ _ _ => True
  | _ => False
  end.

(** [f] is zero or finite, of magnitude below [4]. *)
Definition small (f : spec_float) : Prop :=
  match f with
  | S754_zero _ => True
  | S754_finite _ m e => rank m e < 2 ^ (2 - emin)
  | _ => False
  end.

Definition F2Z (x : float) : Z := SF2Z (Prim2SF x).

(** [x] is a number: any value but NaN. *)
Definition is_num (x : float) : Prop := not_nan (Prim2SF x).

(** [x] is finite: a number strictly between the infinities. *)
Definition is_finite (x : float) : Prop := is_num x /\ Z.abs (F2Z x) < inf_rank.

Lemma digits2_pos_bounds (m : positive) :
  2 ^ (Zpos (digits2_pos m) - 1) <= Zpos m < 2 ^ Zpos (digits2_pos m).
Proof.
  induction m as [m IH | m IH |]; cbn [digits2_pos].
  - rewrite Pos2Z.inj_succ.
    replace (Z.succ (Zpos (digits2_pos m)) - 1) with (Z.succ (Zpos (digits2_pos m) - 1)) by lia.
    rewrite !Z.pow_succ_r by lia. lia.
  - rewrite Pos2Z.inj_succ.
    replace (Z.succ (Zpos (digits2_pos m)) - 1) with (Z.succ (Zpos (digits2_pos m) - 1)) by lia.
    rewrite !Z.pow_succ_r by lia. lia.
  - cbn. lia.
Qed.

Lemma bounded_inv (m : positive) (e : Z) :
  bounded prec emax m e = true ->
  emin <= e <= 971 /\ Zpos m < 2 ^ 53 /\ (emin < e -> 2 ^ 52 <= Zpos m).
Proof.
  unfold bounded, canonical_mantissa, fexp, SpecFloat.emin, prec, emax.
  intros H. apply andb_prop in H. destruct H as [Hc He].
  apply Z.eqb_eq in Hc. apply Z.leb_le in He.
  pose proof (digits2_pos_bounds m) as [Hlo Hhi].
  set (d := Zpos (digits2_pos m)) in *.
  assert (Hd : d <= 53) by lia.
  split; [lia|]. split.
  - apply Z.lt_le_trans with (2 ^ d); [exact Hhi|].
    apply Z.pow_le_mono_r; lia.
  - intros Hgt. assert (d = 53) by lia.
    replace (d - 1) with 52 in Hlo by lia. exact Hlo.
Qed.

Lemma rank_bounds (m : positive) (e : Z) :
  bounded prec emax m e = true -> 0 < rank m e < inf_rank.
Proof.
  intros H. apply bounded_inv in H. destruct H as (He & Hm & _).
  unfold rank, inf_rank, SpecFloat.emin, prec, emax in *.
  assert (Hp : 0 < 2 ^ (e - (3 - 1024 - 53))) by (apply Z.pow_pos_nonneg; lia).
  split; [lia|].
  apply Z.lt_le_trans with (2 ^ 53 * 2 ^ (e - (3 - 1024 - 53))).
  - apply Z.mul_lt_mono_pos_r; assumption.
  - rewrite <- Z.pow_add_r by lia. apply Z.pow_le_mono_r; lia.
Qed.

Lemma rank_lt_exp (m1 m2 : positive) (e1 e2 : Z) :
  bounded prec emax m1 e1 = true -> bounded prec emax m2 e2 = true ->
  e1 < e2 -> rank m1 e1 < rank m2 e2.
Proof.
  intros H1 H2 Hlt.
  apply bounded_inv in H1. destruct H1 as (He1 & Hm1 & _).
  apply bounded_inv in H2. destruct H2 as (He2 & _ & Hm2).
  specialize (Hm2 ltac:(lia)).
  unfold rank.
  replace (e2 - emin) with ((e2 - e1 - 1) + 1 + (e1 - emin)) by lia.
  rewrite !Z.pow_add_r by lia.
  assert (Ha : 0 < 2 ^ (e1 - emin)) by (apply Z.pow_pos_nonneg; lia).
  assert (Hb : 0 < 2 ^ (e2 - e1 - 1)) by (apply Z.pow_pos_nonneg; lia).
  change (2 ^ 1) with 2. change (2 ^ 53) with 9007199254740992 in Hm1.
  change (2 ^ 52) with 4503599627370496 in Hm2.
  set (A := 2 ^ (e1 - emin)) in *. set (B := 2 ^ (e2 - e1 - 1)) in *.
  assert (Zpos m1 * A < 2 * Zpos m2 * A) by nia.
  assert (2 * Zpos m2 * A <= 2 * Zpos m2 * A * B) by nia.
  nia.
Qed.

Lemma rank_compare_mant (m1 m2 : positive) (e : Z) :
  emin <= e -> (rank m1 e ?= rank m2 e) = (m1 ?= m2)%positive.
Proof.
  intros He. unfold rank.
  assert (Ha : 0 < 2 ^ (e - emin)) by (apply Z.pow_pos_nonneg; lia).
  rewrite <- Zmult_compare_compat_r by lia. reflexivity.
Qed.

Lemma rank_compare (m1 m2 : positive) (e1 e2 : Z) :
  bounded prec emax m1 e1 = true -> bounded prec emax m2 e2 = true ->
  (rank m1 e1 ?= rank m2 e2) =
  match e1 ?= e2 with
  | Lt => Lt
  | Gt => Gt
  | Eq => Pos.compare_cont Eq m1 m2
  end.
Proof.
  intros H1 H2. destruct (Z.compare_spec e1 e2) as [Heq | Hlt | Hgt].
  - subst e2. apply rank_compare_mant. apply bounded_inv in H1. lia.
  - apply Z.compare_lt_iff. now apply rank_lt_exp.
  - apply Z.compare_gt_iff. now apply rank_lt_exp.
Qed.

(** The IEEE comparison of two canonical non-NaN values is the comparison
    of their integer images. *)
Lemma SFcompare_SF2Z (f1 f2 : spec_float) :
  valid_binary f1 = true -> valid_binary f2 = true ->
  not_nan f1 -> not_nan f2 ->
  SFcompare f1 f2 = Some (SF2Z f1 ?= SF2Z f2).
Proof.
  assert (Hinf : 0 < inf_rank) by reflexivity.
  intros V1 V2 N1 N2.
  destruct f1 as [s1 | s1 | | s1 m1 e1]; try (now elim N1);
  destruct f2 as [s2 | s2 | | s2 m2 e2]; try (now elim N2);
  cbn [valid_binary] in V1, V2;
  try (pose proof (rank_bounds _ _ V1) as B1);
  try (pose proof (rank_bounds _ _ V2) as B2);
  cbn [SFcompare SF2Z]; f_equal;
  try (destruct s1); try (destruct s2); cbn [cond_Zopp];
  try reflexivity;
  try (symmetry; apply Z.compare_lt_iff; lia);
  try (symmetry; apply Z.compare_gt_iff; lia);
  try (symmetry; apply Z.compare_eq_iff; lia).
  - rewrite (Z.compare_opp (rank m1 e1) (rank m2 e2)).
    rewrite (Z.compare_antisym (rank m1 e1)), (rank_compare _ _ _ _ V1 V2).
    destruct (e1 ?= e2); reflexivity.
  - rewrite (rank_compare _ _ _ _ V1 V2). reflexivity.
Qed.

(** *** The sign of a difference

    Rounding never changes the sign of a non-zero exact result, and never
    rounds it to zero: the difference of two finite values is zero,
    positive or negative exactly as the exact difference is. *)

Lemma shr_1_m (mrs : shr_record) :
  0 <= shr_m mrs -> shr_m (shr_1 mrs) = shr_m mrs / 2.
Proof.
  destruct mrs as [m r s]. cbn [shr_m]. intros Hm.
  destruct m as [| p | p]; [reflexivity | | lia].
  destruct p as [p | p |]; cbn [shr_1 shr_m].
  - apply Z.div_unique with 1; lia.
  - apply Z.div_unique with 0; lia.
  - reflexivity.
Qed.

Lemma iter_shr_1_m (p : positive) (mrs : shr_record) :
  0 <= shr_m mrs -> shr_m (iter_pos shr_1 p mrs) = shr_m mrs / 2 ^ Zpos p.
Proof.
  revert mrs. induction p as [p IH | p IH |]; intros mrs Hm; cbn [iter_pos].
  - assert (H1 : 0 <= shr_m (shr_1 mrs)) by (rewrite shr_1_m by lia; apply Z.div_pos; lia).
    assert (Hp : 0 < 2 ^ Zpos p) by (apply Z.pow_pos_nonneg; lia).
    assert (H2 : 0 <= shr_m (iter_pos shr_1 p (shr_1 mrs)))
      by (rewrite IH by lia; apply Z.div_pos; lia).
    rewrite IH, IH, shr_1_m by lia.
    rewrite !Z.div_div by lia.
    f_equal. rewrite Pos2Z.inj_xI.
    replace (2 * Zpos p + 1) with (1 + Zpos p + Zpos p) by lia.
    rewrite !Z.pow_add_r by lia. change (2 ^ 1) with 2. lia.
  - assert (Hp : 0 < 2 ^ Zpos p) by (apply Z.pow_pos_nonneg; lia).
    assert (H2 : 0 <= shr_m (iter_pos shr_1 p mrs))
      by (rewrite IH by lia; apply Z.div_pos; lia).
    rewrite IH, IH by lia.
    rewrite !Z.div_div by lia.
    f_equal. rewrite <- Z.pow_add_r by lia. f_equal. lia.
  - rewrite shr_1_m by lia. reflexivity.
Qed.

Lemma shr_record_of_loc_m (m : Z) (l : location) : shr_m (shr_record_of_loc m l) = m.
Proof. destruct l as [|[]]; reflexivity. Qed.

(** Shifting a positive mantissa to its canonical exponent leaves it
    positive, when the exponent is not below [emin]. *)
Lemma shr_fexp_pos (m : positive) (e : Z) (l : location) :
  emin <= e ->
  0 < shr_m (fst (shr_fexp prec emax (Zpos m) e l)) /\
  emin <= snd (shr_fexp prec emax (Zpos m) e l).
Proof.
  intros He. unfold shr_fexp, shr. cbn [Zdigits2].
  pose proof (digits2_pos_bounds m) as [Hlo Hhi].
  set (d := Zpos (digits2_pos m)) in *.
  assert (Hd : 0 < d) by (unfold d; lia).
  unfold fexp, SpecFloat.emin, prec, emax in *.
  destruct (Z.max (d + e - 53) (3 - 1024 - 53) - e) as [| n | n] eqn:En;
    cbn [fst snd]; rewrite ?shr_record_of_loc_m; try lia.
  rewrite iter_shr_1_m by (rewrite shr_record_of_loc_m; lia).
  rewrite shr_record_of_loc_m.
  assert (Hn : Zpos n = d - 53) by lia.
  split; [|lia].
  apply Z.lt_le_trans with 1; [lia|].
  apply Z.div_le_lower_bound; [apply Z.pow_pos_nonneg; lia|].
  rewrite Z.mul_1_r. apply Z.le_trans with (2 ^ (d - 1)); [|exact Hlo].
  apply Z.pow_le_mono_r; lia.
Qed.

Lemma round_nearest_even_pos (m : Z) (l : location) :
  0 < m -> 0 < round_nearest_even m l.
Proof.
  intros Hm. unfold round_nearest_even. destruct l as [|[]]; try lia.
  destruct (Z.even m); lia.
Qed.

Lemma binary_round_aux_sign (sx : bool) (m : positive) (e : Z) (l : location) :
  emin <= e ->
  match binary_round_aux prec emax sx (Zpos m) e l with
  | S754_finite s _ _ | S754_infinity s => s = sx
  | _ => False
  end.
Proof.
  intros He. unfold binary_round_aux.
  pose proof (shr_fexp_pos m e l He) as [H1 H2].
  destruct (shr_fexp prec emax (Zpos m) e l) as [mrs' e']. cbn [fst snd] in *.
  pose proof (round_nearest_even_pos _ (loc_of_shr_record mrs') H1) as H3.
  destruct (round_nearest_even (shr_m mrs') (loc_of_shr_record mrs')) as [| m1 | m1]; try lia.
  pose proof (shr_fexp_pos m1 e' loc_Exact H2) as [H4 H5].
  destruct (shr_fexp prec emax (Zpos m1) e' loc_Exact) as [mrs'' e'']. cbn [fst snd] in *.
  destruct (shr_m mrs'') as [| m2 | m2]; try lia.
  destruct (e'' <=? emax - prec); reflexivity.
Qed.

Lemma iter_xO (m d : positive) : Zpos (Pos.iter xO m d) = Zpos m * 2 ^ Zpos d.
Proof.
  induction d as [|d IH] using Pos.peano_ind.
  - cbn. lia.
  - rewrite Pos.iter_succ, Pos2Z.inj_xO, IH, Pos2Z.inj_succ, Z.pow_succ_r by lia. lia.
Qed.

Lemma shl_align_spec (m : positive) (e e' : Z) :
  e' <= e ->
  Zpos (fst (shl_align m e e')) = Zpos m * 2 ^ (e - e') /\ snd (shl_align m e e') = e'.
Proof.
  intros H. unfold shl_align. destruct (e' - e) as [| d | d] eqn:E; cbn [fst snd]; try lia.
  - replace (e - e') with 0 by lia. lia.
  - rewrite iter_xO. replace (e - e') with (Zpos d) by lia. lia.
Qed.

Lemma binary_round_sign (sx : bool) (m : positive) (e : Z) :
  emin <= e ->
  match binary_round prec emax sx m e with
  | S754_finite s _ _ | S754_infinity s => s = sx
  | _ => False
  end.
Proof.
  intros He. unfold binary_round.
  destruct (shl_align m e (fexp prec emax (Zpos (digits2_pos m) + e))) as [mz ez] eqn:E.
  apply binary_round_aux_sign.
  unfold shl_align in E.
  destruct (fexp prec emax (Zpos (digits2_pos m) + e) - e) eqn:F; injection E as <- <-; try lia.
  unfold fexp. lia.
Qed.

Lemma rank_split (m : positive) (e ez : Z) :
  emin <= ez <= e -> rank m e = Zpos m * 2 ^ (e - ez) * 2 ^ (ez - emin).
Proof.
  intros H. unfold rank. rewrite <- Z.mul_assoc, <- Z.pow_add_r by lia.
  do 2 f_equal. lia.
Qed.

Lemma SFsub_sign (x y : spec_float) :
  valid_binary x = true -> valid_binary y = true ->
  finite_or_zero x -> finite_or_zero y ->
  match SF64sub x y with
  | S754_zero _ => SF2Z x - SF2Z y = 0
  | S754_finite s _ _ | S754_infinity s =>
      if s then SF2Z x - SF2Z y < 0 else 0 < SF2Z x - SF2Z y
  | S754_nan => False
  end.
Proof.
  intros Vx Vy Fx Fy.
  destruct x as [sx | sx | | sx mx ex]; try contradiction;
  destruct y as [sy | sy | | sy my ey]; try contradiction;
  cbn [valid_binary] in Vx, Vy; unfold SF64sub; cbn [SFsub SF2Z].
  - destruct sx, sy; reflexivity.
  - apply rank_bounds in Vy. destruct sy; cbn [negb cond_Zopp]; lia.
  - apply rank_bounds in Vx. destruct sx; cbn [cond_Zopp]; lia.
  - pose proof (bounded_inv _ _ Vx) as (Hex & _ & _).
    pose proof (bounded_inv _ _ Vy) as (Hey & _ & _).
    set (ez := Z.min ex ey).
    assert (Hez : emin <= ez) by (unfold ez; lia).
    destruct (shl_align_spec mx ex ez ltac:(unfold ez; lia)) as [Ax _].
    destruct (shl_align_spec my ey ez ltac:(unfold ez; lia)) as [Ay _].
    rewrite Ax, Ay.
    rewrite (rank_split mx ex ez), (rank_split my ey ez) by (unfold ez; lia).
    assert (HK : 0 < 2 ^ (ez - emin)) by (apply Z.pow_pos_nonneg; lia).
    set (K := 2 ^ (ez - emin)) in *.
    set (X := Zpos mx * 2 ^ (ex - ez)). set (Y := Zpos my * 2 ^ (ey - ez)).
    assert (HD : cond_Zopp sx (X * K) - cond_Zopp sy (Y * K)
                 = (cond_Zopp sx X - cond_Zopp sy Y) * K)
      by (destruct sx, sy; cbn [cond_Zopp]; lia).
    rewrite HD.
    destruct (cond_Zopp sx X - cond_Zopp sy Y) as [| d | d] eqn:ED; cbn [binary_normalize].
    + lia.
    + pose proof (binary_round_sign false d ez Hez) as Hs.
      destruct (binary_round prec emax false d ez) as [s | s | | s m e];
        try contradiction; subst s; lia.
    + pose proof (binary_round_sign true d ez Hez) as Hs.
      destruct (binary_round prec emax true d ez) as [s | s | | s m e];
        try contradiction; subst s; lia.
Qed.

(** *** No overflow on small values

    Sums and differences of values of magnitude below [4] are finite, and
    a sum has the sign of the exact sum. *)

Lemma pow2_gt_1_inv (a : Z) : 1 < 2 ^ a -> 0 < a.
Proof.
  intros H. destruct (Z_lt_le_dec 0 a) as [|Hle]; [assumption|].
  destruct (Z.eq_dec a 0) as [->|Hne]; [cbn in H; lia|].
  rewrite Z.pow_neg_r in H by lia. lia.
Qed.

Lemma digits_le (m : positive) (k : Z) : Zpos m < 2 ^ k -> Zpos (digits2_pos m) <= k.
Proof.
  intros H. pose proof (digits2_pos_bounds m) as [Hlo _].
  destruct (Z_le_gt_dec (Zpos (digits2_pos m)) k) as [|Hgt]; [assumption|].
  assert (0 <= k).
  { destruct (Z_lt_le_dec k 0); [|assumption]. rewrite Z.pow_neg_r in H by lia. lia. }
  assert (2 ^ k <= 2 ^ (Zpos (digits2_pos m) - 1)) by (apply Z.pow_le_mono_r; lia).
  lia.
Qed.

(** A mantissa whose value is below [2 ^ k] keeps a value below [2 ^ k]
    when it is shifted to its canonical exponent. *)
Lemma shr_fexp_bound (m : positive) (e k : Z) (l : location) :
  emin <= e -> Zpos m < 2 ^ (k - e) ->
  0 < shr_m (fst (shr_fexp prec emax (Zpos m) e l)) < 2 ^ (k - snd (shr_fexp prec emax (Zpos m) e l)) /\
  emin <= snd (shr_fexp prec emax (Zpos m) e l) < k.
Proof.
  intros He Hm.
  assert (Hke : 0 < k - e) by (apply pow2_gt_1_inv; lia).
  pose proof (digits_le m _ Hm) as Hdk.
  unfold shr_fexp, shr. cbn [Zdigits2].
  pose proof (digits2_pos_bounds m) as [Hlo Hhi].
  set (d := Zpos (digits2_pos m)) in *.
  assert (Hd : 0 < d) by (unfold d; lia).
  unfold fexp, SpecFloat.emin, prec, emax in *.
  destruct (Z.max (d + e - 53) (3 - 1024 - 53) - e) as [| n | n] eqn:En;
    cbn [fst snd]; rewrite ?shr_record_of_loc_m; try lia.
  rewrite iter_shr_1_m by (rewrite shr_record_of_loc_m; lia).
  rewrite shr_record_of_loc_m.
  assert (Hn : Zpos n = d - 53) by lia.
  assert (Hp : 0 < 2 ^ Zpos n) by (apply Z.pow_pos_nonneg; lia).
  split; [|lia]. split.
  - apply Z.lt_le_trans with 1; [lia|].
    apply Z.div_le_lower_bound; [assumption|].
    rewrite Z.mul_1_r. apply Z.le_trans with (2 ^ (d - 1)); [|exact Hlo].
    apply Z.pow_le_mono_r; lia.
  - apply Z.div_lt_upper_bound; [assumption|].
    rewrite <- Z.pow_add_r by lia.
    replace (Zpos n + (k - (e + Zpos n))) with (k - e) by lia. exact Hm.
Qed.

Lemma round_nearest_even_bound (m b : Z) (l : location) :
  0 < m < b -> 0 < round_nearest_even m l <= b.
Proof.
  intros Hm. unfold round_nearest_even. destruct l as [|[]]; try lia.
  destruct (Z.even m); lia.
Qed.

Lemma binary_round_aux_finite (sx : bool) (m : positive) (e k : Z) (l : location) :
  emin <= e -> Zpos m < 2 ^ (k - e) -> k <= 971 ->
  exists m' e', binary_round_aux prec emax sx (Zpos m) e l = S754_finite sx m' e'.
Proof.
  intros He Hm Hk. unfold binary_round_aux.
  pose proof (shr_fexp_bound m e k l He Hm) as [[H1 H1'] H2].
  destruct (shr_fexp prec emax (Zpos m) e l) as [mrs' e']. cbn [fst snd] in *.
  pose proof (round_nearest_even_bound _ _ (loc_of_shr_record mrs') (conj H1 H1')) as H3.
  destruct (round_nearest_even (shr_m mrs') (loc_of_shr_record mrs')) as [| m1 | m1]; try lia.
  assert (Hm1 : Zpos m1 < 2 ^ (k + 1 - e')).
  { replace (k + 1 - e') with (Z.succ (k - e')) by lia. rewrite Z.pow_succ_r by lia. lia. }
  pose proof (shr_fexp_bound m1 e' (k + 1) loc_Exact ltac:(lia) Hm1) as [[H4 H4'] H5].
  destruct (shr_fexp prec emax (Zpos m1) e' loc_Exact) as [mrs'' e'']. cbn [fst snd] in *.
  destruct (shr_m mrs'') as [| m2 | m2]; try lia.
  replace (e'' <=? emax - prec) with true by (symmetry; apply Z.leb_le; unfold emax, prec; lia).
  eauto.
Qed.

Lemma binary_round_finite (sx : bool) (m : positive) (e k : Z) :
  emin <= e -> Zpos m < 2 ^ (k - e) -> k <= 971 ->
  exists m' e', binary_round prec emax sx m e = S754_finite sx m' e'.
Proof.
  intros He Hm Hk. unfold binary_round.
  assert (Hf : emin <= fexp prec emax (Zpos (digits2_pos m) + e)) by (unfold fexp; lia).
  set (f := fexp prec emax (Zpos (digits2_pos m) + e)) in *.
  assert (Hke : 0 < k - e) by (apply pow2_gt_1_inv; lia).
  unfold shl_align.
  destruct (f - e) as [| n | n] eqn:F;
    try (apply binary_round_aux_finite with k; assumption).
  apply binary_round_aux_finite with k; [assumption| |assumption].
  rewrite iter_xO.
  replace (k - f) with ((k - e) + Zpos n) by lia.
  rewrite Z.pow_add_r by lia.
  assert (0 < 2 ^ Zpos n) by (apply Z.pow_pos_nonneg; lia). nia.
Qed.

Lemma small_align (m : positive) (e ez : Z) :
  emin <= ez <= e -> rank m e < 2 ^ (2 - emin) -> Zpos m * 2 ^ (e - ez) < 2 ^ (2 - ez).
Proof.
  intros H Hr. rewrite (rank_split m e ez H) in Hr.
  replace (2 - emin) with ((2 - ez) + (ez - emin)) in Hr by lia.
  assert (ez <= 2).
  { destruct (Z_le_gt_dec ez 2); [assumption|].
    assert (0 < Zpos m * 2 ^ (e - ez)) by (apply Z.mul_pos_pos; [lia|apply Z.pow_pos_nonneg; lia]).
    assert (2 ^ (2 - ez + (ez - emin)) <= 2 ^ (ez - emin)) by (apply Z.pow_le_mono_r; lia).
    assert (0 < 2 ^ (ez - emin)) by (apply Z.pow_pos_nonneg; lia). nia. }
  rewrite Z.pow_add_r in Hr by lia.
  assert (0 < 2 ^ (ez - emin)) by (apply Z.pow_pos_nonneg; lia). nia.
Qed.

(** The sum or difference of two aligned small mantissas rounds to a
    finite value of the sign of the exact result. *)
Lemma binary_normalize_small (D ez : Z) (X Y : Z) :
  emin <= ez -> 0 < X < 2 ^ (2 - ez) -> 0 < Y < 2 ^ (2 - ez) -> Z.abs D <= X + Y ->
  match binary_normalize prec emax D ez false with
  | S754_zero _ => D = 0
  | S754_finite s _ _ => if s then D < 0 else 0 < D
  | _ => False
  end.
Proof.
  intros Hez HX HY HD.
  assert (Hb : Z.abs D < 2 ^ (3 - ez)).
  { replace (3 - ez) with (Z.succ (2 - ez)) by lia.
    assert (0 <= 2 - ez).
    { destruct (Z_lt_le_dec (2 - ez) 0); [|assumption]. rewrite Z.pow_neg_r in HX by lia. lia. }
    rewrite Z.pow_succ_r by lia. lia. }
  destruct D as [| d | d]; cbn [binary_normalize].
  - reflexivity.
  - destruct (binary_round_finite false d ez 3 Hez ltac:(lia) ltac:(lia)) as (m' & e' & ->). lia.
  - destruct (binary_round_finite true d ez 3 Hez ltac:(lia) ltac:(lia)) as (m' & e' & ->). lia.
Qed.

Lemma SFadd_small (x y : spec_float) :
  valid_binary x = true -> valid_binary y = true -> small x -> small y ->
  match SF64add x y with
  | S754_zero _ => SF2Z x + SF2Z y = 0
  | S754_finite s _ _ => if s then SF2Z x + SF2Z y < 0 else 0 < SF2Z x + SF2Z y
  | _ => False
  end.
Proof.
  intros Vx Vy Sx Sy.
  destruct x as [sx | sx | | sx mx ex]; try contradiction;
  destruct y as [sy | sy | | sy my ey]; try contradiction;
  cbn [valid_binary small] in *; unfold SF64add; cbn [SFadd SF2Z].
  - destruct sx, sy; reflexivity.
  - apply rank_bounds in Vy. destruct sy; cbn [cond_Zopp]; lia.
  - apply rank_bounds in Vx. destruct sx; cbn [cond_Zopp]; lia.
  - pose proof (bounded_inv _ _ Vx) as (Hex & _ & _).
    pose proof (bounded_inv _ _ Vy) as (Hey & _ & _).
    set (ez := Z.min ex ey).
    assert (Hez : emin <= ez) by (unfold ez; lia).
    destruct (shl_align_spec mx ex ez ltac:(unfold ez; lia)) as [Ax _].
    destruct (shl_align_spec my ey ez ltac:(unfold ez; lia)) as [Ay _].
    pose proof (small_align mx ex ez ltac:(unfold ez; lia) Sx) as Bx.
    pose proof (small_align my ey ez ltac:(unfold ez; lia) Sy) as By.
    rewrite Ax, Ay.
    rewrite (rank_split mx ex ez), (rank_split my ey ez) by (unfold ez; lia).
    assert (HK : 0 < 2 ^ (ez - emin)) by (apply Z.pow_pos_nonneg; lia).
    set (K := 2 ^ (ez - emin)) in *.
    assert (PX : 0 < Zpos mx * 2 ^ (ex - ez))
      by (apply Z.mul_pos_pos; [lia|apply Z.pow_pos_nonneg; unfold ez; lia]).
    assert (PY : 0 < Zpos my * 2 ^ (ey - ez))
      by (apply Z.mul_pos_pos; [lia|apply Z.pow_pos_nonneg; unfold ez; lia]).
    set (X := Zpos mx * 2 ^ (ex - ez)) in *. set (Y := Zpos my * 2 ^ (ey - ez)) in *.
    assert (HD : cond_Zopp sx (X * K) + cond_Zopp sy (Y * K)
                 = (cond_Zopp sx X + cond_Zopp sy Y) * K)
      by (destruct sx, sy; cbn [cond_Zopp]; lia).
    rewrite HD.
    pose proof (binary_normalize_small (cond_Zopp sx X + cond_Zopp sy Y) ez X Y Hez
                  (conj PX Bx) (conj PY By)
                  ltac:(destruct sx, sy; cbn [cond_Zopp]; lia)) as Hn.
    destruct (binary_normalize prec emax (cond_Zopp sx X + cond_Zopp sy Y) ez false)
      as [s | s | | s m e]; try contradiction.
    + rewrite Hn. reflexivity.
    + destruct s; nia.
Qed.

Lemma SFsub_small (x y : spec_float) :
  valid_binary x = true -> valid_binary y = true -> small x -> small y ->
  match SF64sub x y with
  | S754_zero _ | S754_finite _ _ _ => True
  | _ => False
  end.
Proof.
  intros Vx Vy Sx Sy.
  destruct x as [sx | sx | | sx mx ex]; try contradiction;
  destruct y as [sy | sy | | sy my ey]; try contradiction;
  cbn [valid_binary small] in *; unfold SF64sub; cbn [SFsub SF2Z]; try exact I.
  - destruct sx, sy; exact I.
  - pose proof (bounded_inv _ _ Vx) as (Hex & _ & _).
    pose proof (bounded_inv _ _ Vy) as (Hey & _ & _).
    set (ez := Z.min ex ey).
    assert (Hez : emin <= ez) by (unfold ez; lia).
    destruct (shl_align_spec mx ex ez ltac:(unfold ez; lia)) as [Ax _].
    destruct (shl_align_spec my ey ez ltac:(unfold ez; lia)) as [Ay _].
    pose proof (small_align mx ex ez ltac:(unfold ez; lia) Sx) as Bx.
    pose proof (small_align my ey ez ltac:(unfold ez; lia) Sy) as By.
    rewrite Ax, Ay.
    assert (PX : 0 < Zpos mx * 2 ^ (ex - ez))
      by (apply Z.mul_pos_pos; [lia|apply Z.pow_pos_nonneg; unfold ez; lia]).
    assert (PY : 0 < Zpos my * 2 ^ (ey - ez))
      by (apply Z.mul_pos_pos; [lia|apply Z.pow_pos_nonneg; unfold ez; lia]).
    set (X := Zpos mx * 2 ^ (ex - ez)) in *. set (Y := Zpos my * 2 ^ (ey - ez)) in *.
    pose proof (binary_normalize_small (cond_Zopp sx X - cond_Zopp sy Y) ez X Y Hez
                  (conj PX Bx) (conj PY By)
                  ltac:(destruct sx, sy; cbn [cond_Zopp]; lia)) as Hn.
    destruct (binary_normalize prec emax (cond_Zopp sx X - cond_Zopp sy Y) ez false)
      as [s | s | | s m e]; try contradiction; exact I.
Qed.

(** *** Primitive floats *)

Lemma compare_F2Z (x y : float) :
  is_num x -> is_num y ->
  SFcompare (Prim2SF x) (Prim2SF y) = Some (F2Z x ?= F2Z y).
Proof.
  intros Hx Hy. apply SFcompare_SF2Z; auto using Prim2SF_valid.
Qed.

Lemma leb_F2Z (x y : float) :
  is_num x -> is_num y -> (x <=? y)%float = (F2Z x <=? F2Z y).
Proof.
  intros Hx Hy. rewrite leb_spec. unfold SFleb. rewrite compare_F2Z by assumption.
  unfold Z.leb. destruct (F2Z x ?= F2Z y); reflexivity.
Qed.

Lemma ltb_F2Z (x y : float) :
  is_num x -> is_num y -> (x <? y)%float = (F2Z x <? F2Z y).
Proof.
  intros Hx Hy. rewrite ltb_spec. unfold SFltb. rewrite compare_F2Z by assumption.
  unfold Z.ltb. destruct (F2Z x ?= F2Z y); reflexivity.
Qed.

Lemma eqb_F2Z (x y : float) :
  is_num x -> is_num y -> (x =? y)%float = (F2Z x =? F2Z y).
Proof.
  intros Hx Hy. rewrite eqb_spec. unfold SFeqb. rewrite compare_F2Z by assumption.
  unfold Z.eqb. destruct (F2Z x) , (F2Z y); cbn; try reflexivity;
  match goal with |- context [(?a ?= ?b)%positive] => destruct (Pos.compare_spec a b) end;
  cbn; try reflexivity; try (subst; now rewrite Pos.eqb_refl);
  symmetry; apply Pos.eqb_neq; lia.
Qed.

(** A comparison that holds has no NaN operand. *)
Lemma SFcompare_num (f1 f2 : spec_float) (c : comparison) :
  SFcompare f1 f2 = Some c -> not_nan f1 /\ not_nan f2.
Proof.
  unfold not_nan. destruct f1, f2; cbn; intros H; try discriminate; split; discriminate.
Qed.

Lemma leb_num (x y : float) : (x <=? y)%float = true -> is_num x /\ is_num y.
Proof.
  rewrite leb_spec. unfold SFleb, is_num.
  destruct (SFcompare (Prim2SF x) (Prim2SF y)) as [c|] eqn:E; [|discriminate].
  intros _. exact (SFcompare_num _ _ _ E).
Qed.

Lemma ltb_num (x y : float) : (x <? y)%float = true -> is_num x /\ is_num y.
Proof.
  rewrite ltb_spec. unfold SFltb, is_num.
  destruct (SFcompare (Prim2SF x) (Prim2SF y)) as [c|] eqn:E; [|discriminate].
  intros _. exact (SFcompare_num _ _ _ E).
Qed.

Lemma eqb_num (x y : float) : (x =? y)%float = true -> is_num x /\ is_num y.
Proof.
  rewrite eqb_spec. unfold SFeqb, is_num.
  destruct (SFcompare (Prim2SF x) (Prim2SF y)) as [c|] eqn:E; [|discriminate].
  intros _. exact (SFcompare_num _ _ _ E).
Qed.

Lemma opp_num (x : float) : is_num x -> is_num (- x)%float.
Proof.
  unfold is_num, not_nan. rewrite opp_spec. destruct (Prim2SF x); cbn; congruence.
Qed.

Lemma F2Z_opp (x : float) : F2Z (- x)%float = - F2Z x.
Proof.
  unfold F2Z. rewrite opp_spec.
  destruct (Prim2SF x) as [s | s | | s m e]; cbn; try reflexivity; destruct s; cbn; lia.
Qed.

Lemma abs_num (x : float) : is_num (abs x) -> is_num x.
Proof.
  unfold is_num, not_nan. rewrite abs_spec. destruct (Prim2SF x); cbn; congruence.
Qed.

Lemma SF2Z_finite_pos (m : positive) (e : Z) :
  bounded prec emax m e = true -> 0 < rank m e.
Proof. intros H. apply rank_bounds in H. lia. Qed.

Lemma F2Z_abs (x : float) : F2Z (abs x) = Z.abs (F2Z x).
Proof.
  unfold F2Z. rewrite abs_spec. pose proof (Prim2SF_valid x) as V.
  assert (Hinf : 0 < inf_rank) by reflexivity.
  destruct (Prim2SF x) as [s | s | | s m e]; cbn [SFabs SF2Z cond_Zopp]; try reflexivity.
  - destruct s; cbn [cond_Zopp]; lia.
  - cbn in V. apply SF2Z_finite_pos in V. destruct s; cbn [cond_Zopp]; lia.
Qed.

(** Finite values (zeros included) lie strictly between the infinities. *)
Lemma F2Z_finite (x : float) :
  is_num x -> Z.abs (F2Z x) < inf_rank ->
  match Prim2SF x with
  | S754_zero _ | S754_finite _ _ _ => True
  | _ => False
  end.
Proof.
  unfold is_num, not_nan, F2Z. destruct (Prim2SF x) as [s | s | | s m e]; cbn; auto.
  destruct s; cbn; lia.
Qed.

(** The difference of two finite floats has the sign of their exact
    difference. *)
Lemma sub_sign (a b : float) :
  is_finite a -> is_finite b ->
  is_num (a - b)%float /\ Z.sgn (F2Z (a - b)%float) = Z.sgn (F2Z a - F2Z b).
Proof.
  intros [Na Fa] [Nb Fb].
  pose proof (SFsub_sign (Prim2SF a) (Prim2SF b) (Prim2SF_valid a) (Prim2SF_valid b)
                (F2Z_finite a Na Fa) (F2Z_finite b Nb Fb)) as H.
  pose proof (Prim2SF_valid (a - b)%float) as V.
  assert (Hinf : 0 < inf_rank) by reflexivity.
  unfold is_num, not_nan, F2Z in *. rewrite sub_spec in *.
  destruct (SF64sub (Prim2SF a) (Prim2SF b)) as [s | s | | s m e];
    cbn [SF2Z valid_binary] in *.
  - split; [discriminate|]. rewrite H. reflexivity.
  - split; [discriminate|]. destruct s; cbn [cond_Zopp]; lia.
  - contradiction.
  - split; [discriminate|]. apply rank_bounds in V. destruct s; cbn [cond_Zopp]; lia.
Qed.

Lemma finite_class (x : float) :
  match Prim2SF x with S754_zero _ | S754_finite _ _ _ => True | _ => False end ->
  is_finite x.
Proof.
  intros H. pose proof (Prim2SF_valid x) as V.
  assert (Hinf : 0 < inf_rank) by reflexivity.
  unfold is_finite, is_num, not_nan, F2Z.
  destruct (Prim2SF x) as [s | s | | s m e]; try contradiction; cbn [SF2Z valid_binary] in *.
  - split; [discriminate | lia].
  - apply rank_bounds in V. split; [discriminate|]. destruct s; cbn [cond_Zopp]; lia.
Qed.

End Binary64.

(** ** Facts about the constants, and validity *)

Import Binary64.

(** [x] is a number of [[-pi, pi]]. *)
Definition in_range (x : float) : Prop :=
  is_num x /\ (- F2Z M_PI <= F2Z x <= F2Z M_PI)%Z.

Lemma M_PI_repr : Prim2SF M_PI = S754_finite false 7074237752028440 (-51).
Proof. vm_compute. reflexivity. Qed.

Lemma M_PI_num : is_num M_PI.
Proof. unfold is_num, not_nan. rewrite M_PI_repr. discriminate. Qed.

Lemma M_PI_pos : (0 < F2Z M_PI)%Z.
Proof.
  unfold F2Z. rewrite M_PI_repr. cbn [SF2Z cond_Zopp].
  apply SF2Z_finite_pos. vm_compute. reflexivity.
Qed.

Lemma zero_num : is_num 0.
Proof. unfold is_num, not_nan. vm_compute. discriminate. Qed.

Lemma F2Z_zero : F2Z 0 = 0%Z.
Proof. reflexivity. Qed.

Lemma fabs_in_range (x : float) : (fabs x <=? M_PI) = true -> in_range x.
Proof.
  unfold fabs. intros H. destruct (leb_num _ _ H) as [Hx _].
  rewrite leb_F2Z in H by (assumption || apply M_PI_num).
  rewrite F2Z_abs in H. apply Z.leb_le in H.
  split; [now apply abs_num | lia].
Qed.

Lemma is_valid_in_range (i : S1Interval) :
  is_valid i = true -> in_range (lo i) /\ in_range (hi i).
Proof.
  unfold is_valid. intros H. apply andb_prop in H. destruct H as [Hl Hh].
  split; now apply fabs_in_range.
Qed.

Lemma in_range_num (x : float) : in_range x -> is_num x.
Proof. now intros [H _]. Qed.

(** An [==] test against a finite non-zero constant decides Leibniz
    equality. *)
Lemma SFeqb_finite_eq (f : spec_float) (s : bool) (m : positive) (e : Z) :
  SFeqb f (S754_finite s m e) = true -> f = S754_finite s m e.
Proof.
  unfold SFeqb. destruct f as [s' | s' | | s' m' e']; try destruct s'; destruct s; cbn;
    try discriminate;
    change (PosDef.Pos.compare_cont Eq m' m) with (m' ?= m)%positive;
    destruct (Z.compare_spec e' e) as [He | He | He]; try discriminate;
    destruct (Pos.compare_spec m' m) as [Hm | Hm | Hm]; cbn; try discriminate;
    intros _; subst; reflexivity.
Qed.

Lemma eqb_M_PI (x : float) : (x =? M_PI) = true -> x = M_PI.
Proof.
  rewrite eqb_spec, M_PI_repr. intros H. apply SFeqb_finite_eq in H.
  apply Prim2SF_inj. now rewrite M_PI_repr.
Qed.

Lemma eqb_minus_M_PI (x : float) : (x =? - M_PI) = true -> x = - M_PI.
Proof.
  rewrite eqb_spec, opp_spec, M_PI_repr. cbn [SFopp negb]. intros H.
  apply SFeqb_finite_eq in H.
  apply Prim2SF_inj. now rewrite opp_spec, M_PI_repr.
Qed.

Lemma is_empty_eq (i : S1Interval) : is_empty i = true -> i = Empty.
Proof.
  unfold is_empty. intros H. apply andb_prop in H. destruct H as [Hl Hh].
  apply eqb_M_PI in Hl. apply eqb_minus_M_PI in Hh. destruct i; cbn in *. now subst.
Qed.

Lemma is_full_eq (i : S1Interval) : is_full i = true -> i = Full.
Proof.
  unfold is_full. intros H. apply andb_prop in H. destruct H as [Hl Hh].
  apply eqb_minus_M_PI in Hl. apply eqb_M_PI in Hh. destruct i; cbn in *. now subst.
Qed.

Lemma canonical_in_range (p : float) : in_range p -> in_range (canonical p).
Proof.
  intros Hp. unfold canonical. destruct (p =? - M_PI); [|exact Hp].
  split; [apply M_PI_num|]. pose proof M_PI_pos. lia.
Qed.

Lemma M_PI_lt_inf : (F2Z M_PI < inf_rank)%Z.
Proof.
  unfold F2Z. rewrite M_PI_repr. cbn [SF2Z cond_Zopp].
  apply rank_bounds. vm_compute. reflexivity.
Qed.

Lemma in_range_finite (x : float) : in_range x -> is_finite x.
Proof.
  intros [Hn Hr]. split; [exact Hn|]. pose proof M_PI_lt_inf. lia.
Qed.

Lemma canonical_not_minus_pi (p : float) : (canonical p =? - M_PI) = false.
Proof.
  unfold canonical. destruct (p =? - M_PI) eqn:E; [reflexivity | exact E].
Qed.

(** The sign of [b - a] for two numbers of [[-pi, pi]], as the tests
    [>= 0] and [> 0] of the source read it. *)
Lemma sub_tests (a b : float) :
  in_range a -> in_range b ->
  (b - a >=? 0) = (a <=? b) /\ (b - a >? 0) = (a <? b).
Proof.
  intros Ha Hb.
  destruct (sub_sign b a (in_range_finite b Hb) (in_range_finite a Ha)) as [Hn Hs].
  unfold geb, gtb.
  rewrite (leb_F2Z 0 (b - a)), (ltb_F2Z 0 (b - a)) by (assumption || apply zero_num).
  rewrite (leb_F2Z a b), (ltb_F2Z a b) by (apply Ha || apply Hb).
  rewrite F2Z_zero. lia.
Qed.

Create HintDb fnum.
#[local] Hint Resolve M_PI_num zero_num opp_num in_range_num canonical_in_range : fnum.

(** Turn every comparison of floats known to be numbers into the
    comparison of their integer images. *)
Ltac float2Z :=
  repeat match goal with
  | H : context [PrimFloat.leb ?a ?b] |- _ => rewrite (leb_F2Z a b) in H by auto with fnum
  | H : context [PrimFloat.ltb ?a ?b] |- _ => rewrite (ltb_F2Z a b) in H by auto with fnum
  | H : context [PrimFloat.eqb ?a ?b] |- _ => rewrite (eqb_F2Z a b) in H by auto with fnum
  | |- context [PrimFloat.leb ?a ?b] => rewrite (leb_F2Z a b) by auto with fnum
  | |- context [PrimFloat.ltb ?a ?b] => rewrite (ltb_F2Z a b) by auto with fnum
  | |- context [PrimFloat.eqb ?a ?b] => rewrite (eqb_F2Z a b) by auto with fnum
  end;
  rewrite ?F2Z_opp in *.

Ltac valid_facts :=
  repeat match goal with
  | H : is_valid ?i = true |- _ =>
      let Hl := fresh "Hlo" in let Hh := fresh "Hhi" in
      apply is_valid_in_range in H; destruct H as [Hl Hh]
  | H : (fabs ?p <=? M_PI) = true |- _ => apply fabs_in_range in H
  end.

Ltac range_facts :=
  pose proof M_PI_pos;
  repeat match goal with
  | H : in_range ?x |- _ =>
      let Hn := fresh "Hnum" in let Hr := fresh "Hrng" in
      destruct H as [Hn Hr]
  end.

Ltac float_order := valid_facts; range_facts; float2Z; lia.

(** ** Control-flow properties *)

Lemma neq_by_test {A : Type} (f : A -> bool) (a b : A) :
  f a = true -> f b = false -> a <> b.
Proof. intros Ha Hb E. rewrite E in Ha. congruence. Qed.

(** C9. [Intersects] is commutative: [x.Intersects(y) == y.Intersects(x)]
    for every two intervals, valid or not. *)
Theorem Intersects_comm (x y : S1Interval) : Intersects x y = Intersects y x.
Proof.
  unfold Intersects, geb.
  rewrite (orb_comm (is_empty y) (is_empty x)).
  destruct (is_empty x || is_empty y); [reflexivity|].
  destruct (is_inverted x), (is_inverted y); cbn [orb].
  - reflexivity.
  - apply orb_comm.
  - apply orb_comm.
  - apply andb_comm.
Qed.

(** C6. [Complement] returns [Full] for a singleton ([lo == hi]) and the
    interval with swapped endpoints [{hi, lo}] otherwise; the complement
    of [Full] is [Empty] and the complement of [Empty] is [Full]. *)
Theorem Complement_cases (i : S1Interval) :
  Complement i = (if lo i =? hi i then Full else mkS1Interval (hi i) (lo i)) /\
  Complement Full = Empty /\
  Complement Empty = Full.
Proof.
  split; [reflexivity|]. split; reflexivity.
Qed.


(** C1, as amended.  When the other interval is not empty and this
    interval contains exactly one of its endpoints: if only [other.lo] is
    contained, [Union] returns [{this.lo, other.hi}]; if only [other.hi]
    is contained, it returns [{other.lo, this.hi}]. *)
Theorem Union_one_endpoint (i y : S1Interval) :
  is_empty y = false ->
  (FastContains i (lo y) = true -> FastContains i (hi y) = false ->
   Union i y = mkS1Interval (lo i) (hi y)) /\
  (FastContains i (lo y) = false -> FastContains i (hi y) = true ->
   Union i y = mkS1Interval (lo y) (hi i)).
Proof.
  intros He. unfold Union. rewrite He. split; intros Hlo Hhi; rewrite Hlo, Hhi; reflexivity.
Qed.

Lemma Union_one_endpoint_witness :
  Union (mkS1Interval 0 1) (mkS1Interval 0.5 2) = mkS1Interval 0 2 /\
  Union (mkS1Interval 0 1) (mkS1Interval (-1) 0.5) = mkS1Interval (-1) 1.
Proof.
  split.
  - exact (proj1 (Union_one_endpoint (mkS1Interval 0 1) (mkS1Interval 0.5 2) eq_refl)
             eq_refl eq_refl).
  - exact (proj2 (Union_one_endpoint (mkS1Interval 0 1) (mkS1Interval (-1) 0.5) eq_refl)
             eq_refl eq_refl).
Defined.

(** C1, as stated, fails.  [[0, 1]] contains only the high endpoint of
    [[-1, 0.5]], and the union is [[-1, 1]], not [{this.lo, other.hi}]
    [= [0, 0.5]].  The empty interval must be excluded as well:
    [[3, pi]] contains only the low endpoint [pi] of [Empty], and the
    union is [[3, pi]] itself, neither [{other.lo, this.hi}] nor
    [{this.lo, other.hi}]. *)
Lemma Union_one_endpoint_swapped_fails :
  (is_valid (mkS1Interval 0 1) = true /\
   is_valid (mkS1Interval (-1) 0.5) = true /\
   FastContains (mkS1Interval 0 1) (hi (mkS1Interval (-1) 0.5)) = true /\
   FastContains (mkS1Interval 0 1) (lo (mkS1Interval (-1) 0.5)) = false /\
   Union (mkS1Interval 0 1) (mkS1Interval (-1) 0.5) = mkS1Interval (-1) 1 /\
   Union (mkS1Interval 0 1) (mkS1Interval (-1) 0.5)
     <> mkS1Interval (lo (mkS1Interval 0 1)) (hi (mkS1Interval (-1) 0.5))) /\
  (is_valid (mkS1Interval 3 M_PI) = true /\
   FastContains (mkS1Interval 3 M_PI) (lo Empty) = true /\
   FastContains (mkS1Interval 3 M_PI) (hi Empty) = false /\
   Union (mkS1Interval 3 M_PI) Empty = mkS1Interval 3 M_PI /\
   Union (mkS1Interval 3 M_PI) Empty <> mkS1Interval (lo Empty) (hi (mkS1Interval 3 M_PI)) /\
   Union (mkS1Interval 3 M_PI) Empty <> mkS1Interval (lo (mkS1Interval 3 M_PI)) (hi Empty)).
Proof.
  repeat split; try reflexivity.
  - apply (neq_by_test (fun j => lo j =? -1)); reflexivity.
  - apply (neq_by_test (fun j => lo j =? 3)); reflexivity.
  - apply (neq_by_test (fun j => hi j =? M_PI)); reflexivity.
Qed.

(** C8, as amended.  For a non-empty interval and a point [p] with
    [|p| <= pi] that the interval contains, [Project] returns the
    canonical form of [p]: [p] itself unless [p == -pi], and [pi] when
    [p == -pi]. *)
Theorem Project_contained (i : S1Interval) (p : float) :
  is_empty i = false ->
  (fabs p <=? M_PI) = true ->
  Contains i p = Some true ->
  Project i p = Some (canonical p) /\
  ((p =? - M_PI) = false -> Project i p = Some p).
Proof.
  intros He Hp Hc. unfold Contains, Project in *. rewrite He, Hp in *.
  cbn [negb DCHECK bind] in *. injection Hc as Hc. rewrite Hc.
  split; [reflexivity|]. intros Hne. unfold canonical. rewrite Hne. reflexivity.
Qed.

Lemma Project_contained_witness :
  Project (mkS1Interval 0 1) 0.5 = Some 0.5 /\
  Project (mkS1Interval 3 (-3)) (- M_PI) = Some M_PI.
Proof.
  split.
  - exact (proj2 (Project_contained (mkS1Interval 0 1) 0.5 eq_refl eq_refl eq_refl) eq_refl).
  - exact (proj1 (Project_contained (mkS1Interval 3 (-3)) (- M_PI) eq_refl eq_refl eq_refl)).
Defined.

(** C8, as stated, fails at [p = -pi]: the full interval contains it, and
    [Project] returns [pi], which is not [== -pi]. *)
Lemma Project_minus_pi_fails :
  is_valid Full = true /\ is_empty Full = false /\
  (fabs (- M_PI) <=? M_PI) = true /\
  Contains Full (- M_PI) = Some true /\
  Project Full (- M_PI) = Some M_PI /\
  (M_PI =? - M_PI) = false.
Proof. repeat split; reflexivity. Qed.

(** ** Properties that rest on the order of the endpoints *)

Lemma valid_contains_Empty (i : S1Interval) :
  is_valid i = true -> ContainsInterval i Empty = true.
Proof.
  intros Hv. unfold ContainsInterval.
  change (is_inverted Empty) with true. change (is_empty Empty) with true.
  cbn [lo hi Empty]. rewrite orb_true_r. unfold geb.
  destruct (is_inverted i); [|reflexivity].
  float_order.
Qed.

Lemma Empty_contains_is_empty (i : S1Interval) :
  is_valid i = true -> ContainsInterval Empty i = true -> is_empty i = true.
Proof.
  intros Hv Hc. unfold ContainsInterval in Hc.
  change (is_inverted Empty) with true in Hc. change (is_empty Empty) with true in Hc.
  cbn [lo hi Empty negb] in Hc. rewrite andb_false_r in Hc.
  destruct (is_inverted i); [|discriminate].
  unfold is_empty, geb in *. float_order.
Qed.

(** C10. Every valid interval contains the empty interval, and the empty
    interval contains a valid interval only when that interval is the
    empty sentinel itself. *)
Theorem Contains_Empty (i : S1Interval) :
  is_valid i = true ->
  ContainsInterval i Empty = true /\
  (ContainsInterval Empty i = true -> i = Empty).
Proof.
  intros Hv. split.
  - now apply valid_contains_Empty.
  - intros Hc. now apply is_empty_eq, Empty_contains_is_empty.
Qed.

Lemma Contains_Empty_witness :
  ContainsInterval (mkS1Interval 3 (-3)) Empty = true /\
  (ContainsInterval Empty Empty = true -> Empty = Empty).
Proof.
  split.
  - exact (proj1 (Contains_Empty (mkS1Interval 3 (-3)) eq_refl)).
  - exact (proj2 (Contains_Empty Empty eq_refl)).
Defined.

(** C2. For valid intervals, [GetDirectedHausdorffDistance] returns [0]
    whenever the other interval contains this one, in particular whenever
    this one is empty, and returns [pi] whenever the other interval is
    empty and this one is not.  The result does not depend on the
    validated constructor, which these paths never reach. *)
Theorem GetDirectedHausdorffDistance_contract
    (ctor : float -> float -> option S1Interval) (i y : S1Interval) :
  is_valid i = true -> is_valid y = true ->
  (ContainsInterval y i = true -> GetDirectedHausdorffDistance ctor i y = Some 0) /\
  (is_empty i = true -> GetDirectedHausdorffDistance ctor i y = Some 0) /\
  (is_empty y = true -> is_empty i = false ->
   GetDirectedHausdorffDistance ctor i y = Some M_PI).
Proof.
  intros Hi Hy. unfold GetDirectedHausdorffDistance. split; [|split].
  - intros Hc. now rewrite Hc.
  - intros He. apply is_empty_eq in He. subst i.
    now rewrite (valid_contains_Empty y Hy).
  - intros Hey Hei. rewrite Hey.
    destruct (ContainsInterval y i) eqn:Hc; [|reflexivity].
    apply is_empty_eq in Hey. subst y.
    apply (Empty_contains_is_empty i Hi) in Hc. congruence.
Qed.

Lemma GetDirectedHausdorffDistance_contract_witness :
  GetDirectedHausdorffDistance (fun _ _ => None) (mkS1Interval 0 1) (mkS1Interval (-1) 2)
    = Some 0 /\
  GetDirectedHausdorffDistance (fun _ _ => None) Empty (mkS1Interval 0 1) = Some 0 /\
  GetDirectedHausdorffDistance (fun _ _ => None) (mkS1Interval 0 1) Empty = Some M_PI.
Proof.
  split; [|split].
  - exact (proj1 (GetDirectedHausdorffDistance_contract (fun _ _ => None)
             (mkS1Interval 0 1) (mkS1Interval (-1) 2) eq_refl eq_refl) eq_refl).
  - exact (proj1 (proj2 (GetDirectedHausdorffDistance_contract (fun _ _ => None)
             Empty (mkS1Interval 0 1) eq_refl eq_refl)) eq_refl).
  - exact (proj2 (proj2 (GetDirectedHausdorffDistance_contract (fun _ _ => None)
             (mkS1Interval 0 1) Empty eq_refl eq_refl)) eq_refl eq_refl).
Defined.

(** When this interval is not empty and contains neither endpoint of a
    non-empty [y], [y] contains this interval exactly when it contains
    its low endpoint. *)
Lemma ContainsInterval_by_lo (i y : S1Interval) :
  is_valid i = true -> is_valid y = true ->
  is_empty y = false -> is_empty i = false ->
  FastContains i (lo y) = false -> FastContains i (hi y) = false ->
  ContainsInterval y i = FastContains y (lo i).
Proof.
  intros Hi Hy Hey Hei Hl Hh.
  unfold ContainsInterval, FastContains, is_full, is_empty, is_inverted, geb, gtb in *.
  valid_facts. range_facts. float2Z.
  destruct (F2Z (hi i) <? F2Z (lo i))%Z eqn:Ii, (F2Z (hi y) <? F2Z (lo y))%Z eqn:Iy; lia.
Qed.

Lemma disjoint_no_endpoint (i y : S1Interval) :
  is_valid i = true -> is_valid y = true ->
  is_empty y = false -> is_empty i = false ->
  FastContains i (lo y) = false -> FastContains i (hi y) = false ->
  FastContains y (lo i) = false ->
  Intersects i y = false.
Proof.
  intros Hi Hy Hey Hei Hl Hh Hc.
  unfold Intersects. rewrite Hei, Hey. cbn [orb].
  unfold FastContains, is_full, is_empty, is_inverted, geb, gtb in *.
  valid_facts. range_facts. float2Z.
  destruct (F2Z (hi i) <? F2Z (lo i))%Z eqn:Ii, (F2Z (hi y) <? F2Z (lo y))%Z eqn:Iy; lia.
Qed.

(** When this interval contains neither endpoint of a non-empty [y]: if
    [y] contains this interval, or this interval is empty, [Union]
    returns [y]; otherwise the two intervals are disjoint and [Union]
    returns [{y.lo, this.hi}] when the distance computed from [y.hi] to
    [this.lo] is strictly less than the one computed from [this.hi] to
    [y.lo], and [{this.lo, y.hi}] otherwise. *)
Lemma Union_no_endpoint (i y : S1Interval) :
  is_valid i = true -> is_valid y = true -> is_empty y = false ->
  FastContains i (lo y) = false -> FastContains i (hi y) = false ->
  (ContainsInterval y i = true \/ is_empty i = true -> Union i y = y) /\
  (ContainsInterval y i = false -> is_empty i = false ->
   Intersects i y = false /\
   Union i y =
     if PositiveDistance (hi y) (lo i) <? PositiveDistance (hi i) (lo y)
     then mkS1Interval (lo y) (hi i)
     else mkS1Interval (lo i) (hi y)).
Proof.
  intros Hi Hy Hey Hl Hh. unfold Union. rewrite Hey, Hl, Hh.
  destruct (is_empty i) eqn:Hei.
  - split; [reflexivity|]. intros _ Habs. discriminate.
  - rewrite <- (ContainsInterval_by_lo i y Hi Hy Hey Hei Hl Hh). cbn [orb].
    split.
    + intros [Hc | Hc]; [|discriminate]. now rewrite Hc.
    + intros Hc _. rewrite Hc. split; [|reflexivity].
      apply disjoint_no_endpoint; try assumption.
      now rewrite <- (ContainsInterval_by_lo i y Hi Hy Hey Hei Hl Hh).
Qed.


(** ** Properties that rest on the sign of a difference *)

(** C7. Adding a point [p] with [|p| <= pi] to a valid interval that is
    not full succeeds and never yields the full interval. *)
Theorem AddPoint_not_full (i : S1Interval) (p : float) :
  is_valid i = true -> is_full i = false -> (fabs p <=? M_PI) = true ->
  exists j, AddPoint i p = Some j /\ is_full j = false.
Proof.
  intros Hv Hnf Hp. unfold AddPoint. rewrite Hp. cbn [DCHECK bind].
  pose proof (canonical_not_minus_pi p) as Hq.
  pose proof (canonical_in_range p (fabs_in_range p Hp)) as Hr.
  set (q := canonical p) in *.
  destruct (FastContains i q) eqn:Hc; [now exists i|].
  destruct (is_empty i) eqn:He.
  { eexists. split; [reflexivity|]. unfold is_full. cbn [lo hi set_lo set_hi]. now rewrite Hq. }
  destruct (PositiveDistance q (lo i) <? PositiveDistance (hi i) q) eqn:Hd.
  { eexists. split; [reflexivity|]. unfold is_full. cbn [lo hi set_lo set_hi]. now rewrite Hq. }
  eexists. split; [reflexivity|]. unfold is_full. cbn [lo hi set_lo set_hi].
  destruct (lo i =? - M_PI) eqn:Hlo; [|reflexivity].
  destruct (q =? M_PI) eqn:Hqpi; [|reflexivity]. exfalso.
  apply eqb_minus_M_PI in Hlo. apply eqb_M_PI in Hqpi.
  destruct (is_valid_in_range i Hv) as [_ Hhi].
  rewrite Hlo, Hqpi in *.
  change (PositiveDistance M_PI (- M_PI)) with 0 in Hd.
  unfold PositiveDistance in Hd.
  destruct (sub_tests (hi i) M_PI Hhi Hr) as [Hge Hgt].
  unfold FastContains, is_inverted, is_full, geb, gtb in *. rewrite Hlo in *.
  rewrite Hge in Hd. fold (gtb (M_PI - hi i) 0) in Hd.
  range_facts. float2Z.
  destruct (F2Z (hi i) <? - F2Z M_PI)%Z eqn:Hinv; [lia|].
  destruct (F2Z (hi i) <=? F2Z M_PI)%Z eqn:Hle; [|lia].
  rewrite Hgt in Hd. float2Z. lia.
Qed.

Lemma AddPoint_not_full_witness :
  exists j, AddPoint (mkS1Interval 0 1) (- M_PI) = Some j /\ is_full j = false.
Proof.
  exact (AddPoint_not_full (mkS1Interval 0 1) (- M_PI) eq_refl eq_refl eq_refl).
Defined.

(** For a valid interval, [GetLength] returns [hi - lo] when the
    interval is not inverted; it returns [-1] for [Empty], a value
    [== 0] for a singleton, and [2 * pi] for [Full]. *)
Lemma GetLength_cases (i : S1Interval) :
  is_valid i = true ->
  (is_inverted i = false -> GetLength i = hi i - lo i) /\
  (is_empty i = true -> GetLength i = -1) /\
  ((lo i =? hi i) = true -> (GetLength i =? 0) = true) /\
  (is_full i = true -> GetLength i = 2 * M_PI).
Proof.
  intros Hv. destruct (is_valid_in_range i Hv) as [Hlo Hhi].
  destruct (sub_tests (lo i) (hi i) Hlo Hhi) as [Hge Hgt].
  unfold GetLength. rewrite Hge.
  split; [|split; [|split]].
  - unfold is_inverted, gtb. intros Hn.
    replace (lo i <=? hi i) with true; [reflexivity|].
    range_facts. float2Z. lia.
  - intros He. apply is_empty_eq in He. subst i. reflexivity.
  - intros He.
    replace (lo i <=? hi i) with true by (range_facts; float2Z; lia).
    destruct (sub_sign (hi i) (lo i) (in_range_finite _ Hhi) (in_range_finite _ Hlo))
      as [Hn Hs].
    rewrite (eqb_F2Z (hi i - lo i) 0) by (assumption || apply zero_num).
    rewrite F2Z_zero. range_facts. float2Z. lia.
  - intros Hf. apply is_full_eq in Hf. subst i. reflexivity.
Qed.

(** C5.  [GetLength] returns [-1], the length kept for empty intervals,
    on an inverted interval that is not empty.  [next_to_empty], the
    result of [FromPointPair] on [pi] and the double next above [-pi], is
    valid, has canonical endpoints, is inverted, is not [Empty] and
    contains its two endpoints.  Its [hi - lo] rounds to [-2 * pi] (a
    tie, resolved to the even mantissa), the sum [hi - lo + 2 * pi] is
    [0], which is not positive, and [GetLength] returns [-1], not a
    positive length; [PositiveDistance] from [lo] to [hi] measures the
    same arc as [2^-51]. *)
Theorem GetLength_next_to_empty_fails :
  FromPointPair M_PI (next_up (- M_PI)) = Some next_to_empty /\
  hi next_to_empty = next_up (- M_PI) /\
  is_valid next_to_empty = true /\
  is_normalized next_to_empty = true /\
  is_inverted next_to_empty = true /\
  is_empty next_to_empty = false /\
  Contains next_to_empty (lo next_to_empty) = Some true /\
  Contains next_to_empty (hi next_to_empty) = Some true /\
  hi next_to_empty - lo next_to_empty = - (2 * M_PI) /\
  hi next_to_empty - lo next_to_empty + 2 * M_PI = 0 /\
  GetLength next_to_empty = -1 /\
  (GetLength next_to_empty =? hi next_to_empty - lo next_to_empty + 2 * M_PI) = false /\
  PositiveDistance (lo next_to_empty) (hi next_to_empty) = 0x1p-51.
Proof. repeat split. Qed.

(** * Further properties of the operations *)

(** ** Sums and differences of numbers of [[-pi, pi]] *)

Lemma M_PI_small : (F2Z M_PI < 2 ^ (2 - emin))%Z.
Proof.
  unfold F2Z. rewrite M_PI_repr. cbn [SF2Z cond_Zopp]. unfold rank.
  replace (2 - emin)%Z with (53 + (-51 - emin))%Z by reflexivity.
  rewrite Z.pow_add_r by (unfold SpecFloat.emin, prec, emax; lia).
  apply Z.mul_lt_mono_pos_r;
    [apply Z.pow_pos_nonneg; unfold SpecFloat.emin, prec, emax; lia|].
  reflexivity.
Qed.

Lemma in_range_small (x : float) : in_range x -> small (Prim2SF x).
Proof.
  intros [Hn Hr]. pose proof M_PI_small. pose proof M_PI_lt_inf.
  unfold is_num, not_nan, F2Z in *.
  destruct (Prim2SF x) as [s | s | | s m e]; cbn [small SF2Z] in *; auto.
  - destruct s; cbn [cond_Zopp] in *; lia.
  - destruct s; cbn [cond_Zopp] in *; lia.
Qed.

Lemma M_PI_in_range : in_range M_PI.
Proof. split; [apply M_PI_num | pose proof M_PI_pos; lia]. Qed.

(** The sum of two numbers of [[-pi, pi]] is finite and has the sign of
    the exact sum. *)
Lemma add_sign (a b : float) :
  in_range a -> in_range b ->
  is_finite (a + b) /\ Z.sgn (F2Z (a + b)) = Z.sgn (F2Z a + F2Z b).
Proof.
  intros Ha Hb.
  pose proof (SFadd_small (Prim2SF a) (Prim2SF b) (Prim2SF_valid a) (Prim2SF_valid b)
                (in_range_small a Ha) (in_range_small b Hb)) as H.
  pose proof (Prim2SF_valid (a + b)) as V.
  split.
  - apply finite_class. rewrite add_spec.
    destruct (SF64add (Prim2SF a) (Prim2SF b)); auto.
  - unfold F2Z in *. rewrite add_spec in *.
    destruct (SF64add (Prim2SF a) (Prim2SF b)) as [s | s | | s m e];
      try contradiction; cbn [SF2Z valid_binary] in *.
    + rewrite H. reflexivity.
    + apply rank_bounds in V. destruct s; cbn [cond_Zopp]; lia.
Qed.

Lemma sub_finite (a b : float) : in_range a -> in_range b -> is_finite (a - b).
Proof.
  intros Ha Hb. apply finite_class. rewrite sub_spec.
  exact (SFsub_small (Prim2SF a) (Prim2SF b) (Prim2SF_valid a) (Prim2SF_valid b)
           (in_range_small a Ha) (in_range_small b Hb)).
Qed.

(** ** Helpers *)

Lemma abs_num_intro (x : float) : is_num x -> is_num (abs x).
Proof.
  unfold is_num, not_nan. rewrite abs_spec. destruct (Prim2SF x); cbn; congruence.
Qed.

Lemma fabs_intro (x : float) : in_range x -> (fabs x <=? M_PI) = true.
Proof.
  intros [Nn Rb]. unfold fabs. pose proof (abs_num_intro x Nn).
  rewrite leb_F2Z, F2Z_abs by auto with fnum. pose proof M_PI_pos. lia.
Qed.

Lemma is_valid_intro (i : S1Interval) :
  in_range (lo i) -> in_range (hi i) -> is_valid i = true.
Proof.
  intros Hl Hh. unfold is_valid. now rewrite !fabs_intro.
Qed.

Lemma Contains_canonical (i : S1Interval) (p : float) :
  (fabs p <=? M_PI) = true -> Contains i p = Some (FastContains i (canonical p)).
Proof. intros H. unfold Contains. rewrite H. reflexivity. Qed.

Lemma ltb_irrefl (x : float) : (x <? x) = false.
Proof.
  rewrite ltb_spec. unfold SFltb.
  destruct (SFcompare (Prim2SF x) (Prim2SF x)) as [c|] eqn:E; [|reflexivity].
  destruct (SFcompare_num _ _ _ E) as [N _].
  rewrite (compare_F2Z x x N N) in E. rewrite Z.compare_refl in E. now inversion E.
Qed.

Lemma FastContains_Empty (p : float) : FastContains Empty p = false.
Proof.
  unfold FastContains. change (is_inverted Empty) with true.
  change (is_empty Empty) with true. apply andb_false_r.
Qed.

(** Projections of a built interval, reduced without evaluating the
    endpoints. *)
Ltac proj_red :=
  repeat match goal with
  | |- context [lo (mkS1Interval ?a ?b)] => change (lo (mkS1Interval a b)) with a
  | |- context [hi (mkS1Interval ?a ?b)] => change (hi (mkS1Interval a b)) with b
  | H : context [lo (mkS1Interval ?a ?b)] |- _ =>
      change (lo (mkS1Interval a b)) with a in H
  | H : context [hi (mkS1Interval ?a ?b)] |- _ =>
      change (hi (mkS1Interval a b)) with b in H
  end.

Ltac unfold_all :=
  unfold InteriorContainsInterval, ContainsInterval, Intersects, InteriorIntersects,
    FastContains, is_normalized, is_full, is_empty, is_inverted, geb, gtb, neqb,
    ARGS_CHECKED, set_lo, set_hi, Empty, Full in *;
  proj_red.

Ltac split_ifs :=
  repeat match goal with
  | |- context [if ?b then _ else _] => destruct b eqn:?
  | H : context [if ?b then _ else _] |- _ => destruct b eqn:?
  end.

(** Decide a statement about the order of endpoints: read it on
    integers, split on the tests, and conclude by linear arithmetic. *)
Ltac order_cases := valid_facts; range_facts; float2Z; split_ifs; try lia.

(** The canonical form [q] of a point [p] of [[-pi, pi]], with what is
    known of it. *)
Ltac canonical_point p Hp q :=
  let Hq := fresh "Hq" in
  let Hr := fresh "Hr" in
  pose proof (canonical_not_minus_pi p) as Hq;
  pose proof (canonical_in_range p (fabs_in_range p Hp)) as Hr;
  set (q := canonical p) in *.

(** ** Points and singletons *)

(** X1. For a point [p] with [|p| <= pi], [FromPoint(p)] is a valid
    interval in normal form that contains [p] and has a length [== 0]. *)
Theorem FromPoint_singleton (p : float) :
  (fabs p <=? M_PI) = true ->
  is_valid (FromPoint p) = true /\
  is_normalized (FromPoint p) = true /\
  Contains (FromPoint p) p = Some true /\
  (GetLength (FromPoint p) =? 0) = true.
Proof.
  intros Hp. rewrite (Contains_canonical _ _ Hp). unfold FromPoint.
  canonical_point p Hp q.
  split; [apply is_valid_intro; assumption|].
  split; [unfold_all; order_cases|].
  split; [f_equal; unfold_all; order_cases|].
  unfold GetLength, ARGS_CHECKED. proj_red.
  destruct (sub_tests q q Hr Hr) as [Hge _]. rewrite Hge.
  destruct (sub_sign q q (in_range_finite _ Hr) (in_range_finite _ Hr)) as [Hn Hs].
  replace (q <=? q) with true by (symmetry; order_cases).
  rewrite (eqb_F2Z (q - q) 0) by (assumption || apply zero_num).
  rewrite F2Z_zero. lia.
Qed.

Lemma FromPoint_singleton_witness :
  is_valid (FromPoint (- M_PI)) = true /\
  is_normalized (FromPoint (- M_PI)) = true /\
  Contains (FromPoint (- M_PI)) (- M_PI) = Some true /\
  (GetLength (FromPoint (- M_PI)) =? 0) = true.
Proof. exact (FromPoint_singleton (- M_PI) eq_refl). Defined.

(** X2. For two points with [|p| <= pi], [FromPointPair] returns a valid
    interval in normal form that contains both points; for twice the same
    point it returns the singleton of [FromPoint]. *)
Theorem FromPointPair_contains (p1 p2 : float) :
  (fabs p1 <=? M_PI) = true -> (fabs p2 <=? M_PI) = true ->
  (exists j, FromPointPair p1 p2 = Some j /\
     is_valid j = true /\ is_normalized j = true /\
     Contains j p1 = Some true /\ Contains j p2 = Some true) /\
  FromPointPair p1 p1 = Some (FromPoint p1).
Proof.
  intros H1 H2. split.
  - unfold FromPointPair. rewrite H1, H2. cbn [DCHECK bind].
    pose proof (canonical_not_minus_pi p1) as Hq1.
    pose proof (canonical_in_range p1 (fabs_in_range p1 H1)) as Hr1.
    pose proof (canonical_not_minus_pi p2) as Hq2.
    pose proof (canonical_in_range p2 (fabs_in_range p2 H2)) as Hr2.
    destruct (PositiveDistance (canonical p1) (canonical p2) <=? M_PI) eqn:Hd; clear Hd;
    (eexists; split; [reflexivity|];
     rewrite (Contains_canonical _ _ H1), (Contains_canonical _ _ H2);
     set (q1 := canonical p1) in *; set (q2 := canonical p2) in *;
     split; [apply is_valid_intro; assumption|];
     split; [|split; f_equal]; unfold_all; order_cases).
  - unfold FromPointPair, FromPoint. rewrite H1. cbn [DCHECK bind].
    canonical_point p1 H1 q.
    replace (PositiveDistance q q <=? M_PI) with true; [reflexivity|].
    symmetry. unfold PositiveDistance.
    destruct (sub_tests q q Hr Hr) as [Hge _]. rewrite Hge.
    destruct (sub_sign q q (in_range_finite _ Hr) (in_range_finite _ Hr)) as [Hn Hs].
    replace (q <=? q) with true by (symmetry; order_cases).
    rewrite (leb_F2Z (q - q) M_PI) by (assumption || apply M_PI_num).
    pose proof M_PI_pos. lia.
Qed.

Lemma FromPointPair_contains_witness :
  (exists j, FromPointPair 3 (- M_PI) = Some j /\
     is_valid j = true /\ is_normalized j = true /\
     Contains j 3 = Some true /\ Contains j (- M_PI) = Some true) /\
  FromPointPair 3 3 = Some (FromPoint 3).
Proof. exact (FromPointPair_contains 3 (- M_PI) eq_refl eq_refl). Defined.

(** X3. For every point [p] with [|p| <= pi]: the empty interval contains
    [p] neither as a point nor as an interior point, and the full interval
    contains it both ways. *)
Theorem sentinels_points (p : float) :
  (fabs p <=? M_PI) = true ->
  Contains Empty p = Some false /\ Contains Full p = Some true /\
  InteriorContains Empty p = Some false /\ InteriorContains Full p = Some true.
Proof.
  intros Hp. rewrite !(Contains_canonical _ _ Hp).
  unfold InteriorContains. rewrite Hp. cbn [DCHECK bind].
  canonical_point p Hp q.
  change (is_inverted Empty) with true. change (is_inverted Full) with false.
  change (is_full Full) with true. cbv iota. rewrite orb_true_r.
  split; [|split; [|split]]; try reflexivity; f_equal; unfold_all; order_cases.
Qed.

Lemma sentinels_points_witness :
  Contains Empty (- M_PI) = Some false /\ Contains Full (- M_PI) = Some true /\
  InteriorContains Empty (- M_PI) = Some false /\
  InteriorContains Full (- M_PI) = Some true.
Proof. exact (sentinels_points (- M_PI) eq_refl). Defined.

(** X4. An interior point of a valid interval is a point of it. *)
Theorem InteriorContains_Contains (i : S1Interval) (p : float) :
  is_valid i = true -> (fabs p <=? M_PI) = true ->
  InteriorContains i p = Some true -> Contains i p = Some true.
Proof.
  intros Hv Hp. rewrite (Contains_canonical _ _ Hp).
  unfold InteriorContains. rewrite Hp. cbn [DCHECK bind].
  canonical_point p Hp q.
  intros H. f_equal.
  destruct (is_inverted i) eqn:E; injection H as H; unfold_all; order_cases.
Qed.

Lemma InteriorContains_Contains_witness :
  Contains (mkS1Interval 3 (-3)) (- M_PI) = Some true.
Proof.
  exact (InteriorContains_Contains (mkS1Interval 3 (-3)) (- M_PI) eq_refl eq_refl eq_refl).
Defined.

(** X5. A point with [|p| <= pi] is contained in a valid interval exactly
    when the interval contains, and exactly when it intersects, the
    singleton [FromPoint(p)]. *)
Theorem Contains_FromPoint (i : S1Interval) (p : float) :
  is_valid i = true -> (fabs p <=? M_PI) = true ->
  Contains i p = Some (ContainsInterval i (FromPoint p)) /\
  Contains i p = Some (Intersects i (FromPoint p)).
Proof.
  intros Hv Hp. rewrite (Contains_canonical _ _ Hp). unfold FromPoint.
  canonical_point p Hp q.
  split; f_equal; unfold_all; order_cases.
Qed.

Lemma Contains_FromPoint_witness :
  Contains (mkS1Interval 3 (-3)) (- M_PI)
    = Some (ContainsInterval (mkS1Interval 3 (-3)) (FromPoint (- M_PI))) /\
  Contains (mkS1Interval 3 (-3)) (- M_PI)
    = Some (Intersects (mkS1Interval 3 (-3)) (FromPoint (- M_PI))).
Proof. exact (Contains_FromPoint (mkS1Interval 3 (-3)) (- M_PI) eq_refl eq_refl). Defined.

(** ** Containment and intersection of intervals *)

(** X6. On valid intervals, containment of intervals is reflexive and
    transitive. *)
Theorem ContainsInterval_preorder (a b c : S1Interval) :
  is_valid a = true -> is_valid b = true -> is_valid c = true ->
  ContainsInterval a a = true /\
  (ContainsInterval a b = true -> ContainsInterval b c = true ->
   ContainsInterval a c = true).
Proof.
  intros Ha Hb Hc. split; [|intros Hab Hbc]; unfold_all; order_cases.
Qed.

Lemma ContainsInterval_preorder_witness :
  ContainsInterval (mkS1Interval 2 (-2)) (mkS1Interval 2 (-2)) = true /\
  ContainsInterval (mkS1Interval 2 (-2)) (mkS1Interval 3 3) = true.
Proof.
  split.
  - exact (proj1 (ContainsInterval_preorder (mkS1Interval 2 (-2)) (mkS1Interval 3 (-3))
             (mkS1Interval 3 3) eq_refl eq_refl eq_refl)).
  - exact (proj2 (ContainsInterval_preorder (mkS1Interval 2 (-2)) (mkS1Interval 3 (-3))
             (mkS1Interval 3 3) eq_refl eq_refl eq_refl) eq_refl eq_refl).
Defined.

(** X7. If a valid interval contains a valid interval [y], it contains
    every point that [y] contains. *)
Theorem ContainsInterval_points (i y : S1Interval) (p : float) :
  is_valid i = true -> is_valid y = true -> (fabs p <=? M_PI) = true ->
  ContainsInterval i y = true -> Contains y p = Some true ->
  Contains i p = Some true.
Proof.
  intros Hi Hy Hp. rewrite !(Contains_canonical _ _ Hp).
  canonical_point p Hp q.
  intros Hc H. injection H as H. f_equal. unfold_all; order_cases.
Qed.

Lemma ContainsInterval_points_witness :
  Contains (mkS1Interval 2 (-2)) (- M_PI) = Some true.
Proof.
  exact (ContainsInterval_points (mkS1Interval 2 (-2)) (mkS1Interval 3 (-3)) (- M_PI)
           eq_refl eq_refl eq_refl eq_refl eq_refl).
Defined.

(** X8. A valid interval that contains a non-empty valid interval
    intersects it. *)
Theorem ContainsInterval_Intersects (i y : S1Interval) :
  is_valid i = true -> is_valid y = true -> is_empty y = false ->
  ContainsInterval i y = true -> Intersects i y = true.
Proof.
  intros Hi Hy He Hc. unfold_all; order_cases.
Qed.

Lemma ContainsInterval_Intersects_witness :
  Intersects (mkS1Interval 2 (-2)) (mkS1Interval 3 (-3)) = true.
Proof.
  exact (ContainsInterval_Intersects (mkS1Interval 2 (-2)) (mkS1Interval 3 (-3))
           eq_refl eq_refl eq_refl eq_refl).
Defined.

(** X9. Two valid intervals that contain a common point intersect. *)
Theorem Intersects_common_point (i y : S1Interval) (p : float) :
  is_valid i = true -> is_valid y = true -> (fabs p <=? M_PI) = true ->
  Contains i p = Some true -> Contains y p = Some true ->
  Intersects i y = true.
Proof.
  intros Hi Hy Hp. rewrite !(Contains_canonical _ _ Hp).
  canonical_point p Hp q.
  intros H1 H2. injection H1 as H1. injection H2 as H2. unfold_all; order_cases.
Qed.

Lemma Intersects_common_point_witness :
  Intersects (mkS1Interval 0 1) (mkS1Interval 1 (-3)) = true.
Proof.
  exact (Intersects_common_point (mkS1Interval 0 1) (mkS1Interval 1 (-3)) 1
           eq_refl eq_refl eq_refl eq_refl eq_refl).
Defined.

(** X10. Two non-empty valid intervals intersect exactly when the first
    contains an endpoint of the second or the second contains the low
    endpoint of the first: the three tests on which [Union] and
    [Intersection] branch. *)
Theorem Intersects_endpoints (i y : S1Interval) :
  is_valid i = true -> is_valid y = true ->
  is_empty i = false -> is_empty y = false ->
  Intersects i y =
  FastContains i (lo y) || FastContains i (hi y) || FastContains y (lo i).
Proof.
  intros Hi Hy Ei Ey. unfold_all; order_cases.
Qed.

Lemma Intersects_endpoints_witness :
  Intersects (mkS1Interval 0 1) (mkS1Interval (-1) 2) =
  FastContains (mkS1Interval 0 1) (-1) || FastContains (mkS1Interval 0 1) 2
  || FastContains (mkS1Interval (-1) 2) 0.
Proof.
  exact (Intersects_endpoints (mkS1Interval 0 1) (mkS1Interval (-1) 2)
           eq_refl eq_refl eq_refl eq_refl).
Defined.

(** X11. On valid intervals the interior predicates imply the closed
    ones: an interval that interior-contains [y] contains [y], and two
    intervals whose interiors intersect intersect. *)
Theorem Interior_implies_closed (i y : S1Interval) :
  is_valid i = true -> is_valid y = true ->
  (InteriorContainsInterval i y = true -> ContainsInterval i y = true) /\
  (InteriorIntersects i y = true -> Intersects i y = true).
Proof.
  intros Hi Hy. split; intros H; unfold_all; order_cases.
Qed.

Lemma Interior_implies_closed_witness :
  ContainsInterval (mkS1Interval 2 (-2)) (mkS1Interval 3 (-3)) = true /\
  Intersects (mkS1Interval 2 (-2)) (mkS1Interval 3 (-3)) = true.
Proof.
  split.
  - exact (proj1 (Interior_implies_closed (mkS1Interval 2 (-2)) (mkS1Interval 3 (-3))
             eq_refl eq_refl) eq_refl).
  - exact (proj2 (Interior_implies_closed (mkS1Interval 2 (-2)) (mkS1Interval 3 (-3))
             eq_refl eq_refl) eq_refl).
Defined.

(** ** Union *)

(** Split on the branches of [Union]. *)
Ltac union_cases i y :=
  unfold Union, ARGS_CHECKED;
  destruct (is_empty y) eqn:?;
  [ | destruct (FastContains i (lo y)) eqn:?;
      [ destruct (FastContains i (hi y)) eqn:?;
        [ destruct (ContainsInterval i y) eqn:? | ]
      | destruct (FastContains i (hi y)) eqn:?;
        [ | destruct (is_empty i || FastContains y (lo i)) eqn:?;
            [ | destruct (PositiveDistance (hi y) (lo i)
                            <? PositiveDistance (hi i) (lo y)) ] ] ] ].

(** X12. The union of two valid intervals in normal form contains both
    of them. *)
Theorem Union_contains_operands (i y : S1Interval) :
  is_valid i = true -> is_valid y = true ->
  is_normalized i = true -> is_normalized y = true ->
  ContainsInterval (Union i y) i = true /\ ContainsInterval (Union i y) y = true.
Proof.
  intros Hi Hy Ni Ny. union_cases i y; (split; unfold_all; order_cases).
Qed.

Lemma Union_contains_operands_witness :
  ContainsInterval (Union (mkS1Interval (-1) 1) (mkS1Interval 2 (-2)))
    (mkS1Interval (-1) 1) = true /\
  ContainsInterval (Union (mkS1Interval (-1) 1) (mkS1Interval 2 (-2)))
    (mkS1Interval 2 (-2)) = true.
Proof.
  exact (Union_contains_operands (mkS1Interval (-1) 1) (mkS1Interval 2 (-2))
           eq_refl eq_refl eq_refl eq_refl).
Defined.

(** X13. The union of two valid intervals in normal form is valid and in
    normal form. *)
Theorem Union_well_formed (i y : S1Interval) :
  is_valid i = true -> is_valid y = true ->
  is_normalized i = true -> is_normalized y = true ->
  is_valid (Union i y) = true /\ is_normalized (Union i y) = true.
Proof.
  intros Hi Hy Ni Ny.
  destruct (is_valid_in_range i Hi) as [Ril Rih].
  destruct (is_valid_in_range y Hy) as [Ryl Ryh].
  union_cases i y; try (split; [assumption | assumption]);
    try (split; reflexivity);
    (split; [apply is_valid_intro; assumption | unfold_all; order_cases]).
Qed.

Lemma Union_well_formed_witness :
  is_valid (Union (mkS1Interval (-1) 1) (mkS1Interval 2 (-2))) = true /\
  is_normalized (Union (mkS1Interval (-1) 1) (mkS1Interval 2 (-2))) = true.
Proof.
  exact (Union_well_formed (mkS1Interval (-1) 1) (mkS1Interval 2 (-2))
           eq_refl eq_refl eq_refl eq_refl).
Defined.

(** X14. For a valid interval in normal form, [Union] is idempotent, has
    the empty interval as identity and the full interval as absorbing
    element, on either side. *)
Theorem Union_laws (i : S1Interval) :
  is_valid i = true -> is_normalized i = true ->
  Union i i = i /\
  Union i Empty = i /\ Union Empty i = i /\
  Union i Full = Full /\ Union Full i = Full.
Proof.
  intros Hi Ni. split; [|split; [|split; [|split]]].
  - unfold Union.
    destruct (is_empty i) eqn:E; [reflexivity|].
    replace (FastContains i (lo i)) with true by (symmetry; unfold_all; order_cases).
    replace (FastContains i (hi i)) with true by (symmetry; unfold_all; order_cases).
    replace (ContainsInterval i i) with true by (symmetry; unfold_all; order_cases).
    reflexivity.
  - reflexivity.
  - unfold Union.
    destruct (is_empty i) eqn:E; [symmetry; now apply is_empty_eq|].
    rewrite !FastContains_Empty. reflexivity.
  - unfold Union. change (is_empty Full) with false. cbv iota.
    destruct (FastContains i (lo Full)) eqn:E1; destruct (FastContains i (hi Full)) eqn:E2.
    + destruct (ContainsInterval i Full) eqn:E3; [|reflexivity].
      apply is_full_eq. unfold_all; order_cases.
    + exfalso. unfold_all; order_cases.
    + unfold ARGS_CHECKED. apply is_full_eq. unfold_all; order_cases.
    + replace (is_empty i || FastContains Full (lo i)) with true; [reflexivity|].
      symmetry. unfold_all; order_cases.
  - unfold Union. destruct (is_empty i) eqn:E; [reflexivity|].
    replace (FastContains Full (lo i)) with true by (symmetry; unfold_all; order_cases).
    replace (FastContains Full (hi i)) with true by (symmetry; unfold_all; order_cases).
    destruct (ContainsInterval Full i); reflexivity.
Qed.

Lemma Union_laws_witness :
  Union (mkS1Interval 3 (-3)) (mkS1Interval 3 (-3)) = mkS1Interval 3 (-3) /\
  Union (mkS1Interval 3 (-3)) Empty = mkS1Interval 3 (-3) /\
  Union Empty (mkS1Interval 3 (-3)) = mkS1Interval 3 (-3) /\
  Union (mkS1Interval 3 (-3)) Full = Full /\
  Union Full (mkS1Interval 3 (-3)) = Full.
Proof. exact (Union_laws (mkS1Interval 3 (-3)) eq_refl eq_refl). Defined.

(** ** Intersection *)

(** X15. On valid intervals the debug check of [Intersection] never
    fails: an interval is returned, and on the last path of the function,
    where [Empty] is returned, the two intervals do not intersect. *)
Theorem Intersection_check_holds (i y : S1Interval) :
  is_valid i = true -> is_valid y = true ->
  (exists r, Intersection i y = Some r) /\
  (is_empty y = false ->
   FastContains i (lo y) = false -> FastContains i (hi y) = false ->
   FastContains y (lo i) = false -> Intersects i y = false).
Proof.
  intros Hi Hy.
  assert (Hlast : is_empty y = false ->
            FastContains i (lo y) = false -> FastContains i (hi y) = false ->
            FastContains y (lo i) = false -> Intersects i y = false)
    by (intros Ey E1 E2 E3; unfold_all; order_cases).
  split; [|exact Hlast]. unfold Intersection.
  destruct (is_empty y) eqn:Ey; [eauto|].
  destruct (FastContains i (lo y)) eqn:E1;
    [destruct (FastContains i (hi y)); [destruct (GetLength y <? GetLength i)|]; eauto|].
  destruct (FastContains i (hi y)) eqn:E2; [eauto|].
  destruct (FastContains y (lo i)) eqn:E3; [eauto|].
  rewrite Hlast by reflexivity. cbn [negb DCHECK bind]. eauto.
Qed.

Lemma Intersection_check_holds_witness :
  (exists r, Intersection (mkS1Interval (-1) 1) (mkS1Interval 2 (-2)) = Some r) /\
  Intersects (mkS1Interval (-1) 1) (mkS1Interval 2 (-2)) = false.
Proof.
  split.
  - exact (proj1 (Intersection_check_holds (mkS1Interval (-1) 1) (mkS1Interval 2 (-2))
             eq_refl eq_refl)).
  - exact (proj2 (Intersection_check_holds (mkS1Interval (-1) 1) (mkS1Interval 2 (-2))
             eq_refl eq_refl) eq_refl eq_refl eq_refl eq_refl).
Defined.

(** Split on the branches of [Intersection], the last one with its debug
    check discharged. *)
Ltac intersection_cases i y :=
  unfold Intersection, ARGS_CHECKED;
  destruct (is_empty y) eqn:?;
  [ | destruct (FastContains i (lo y)) eqn:?;
      [ destruct (FastContains i (hi y)) eqn:?;
        [ destruct (GetLength y <? GetLength i) | ]
      | destruct (FastContains i (hi y)) eqn:?;
        [ | destruct (FastContains y (lo i)) eqn:?;
            [ | replace (Intersects i y) with false
                  by (symmetry; unfold_all; order_cases);
                cbn [negb DCHECK bind] ] ] ] ].

(** X16. The intersection of two valid intervals in normal form is empty
    exactly when they do not intersect. *)
Theorem Intersection_empty_iff (i y : S1Interval) :
  is_valid i = true -> is_valid y = true ->
  is_normalized i = true -> is_normalized y = true ->
  exists r, Intersection i y = Some r /\ is_empty r = negb (Intersects i y).
Proof.
  intros Hi Hy Ni Ny.
  intersection_cases i y; (eexists; split; [reflexivity|]); unfold_all; order_cases.
Qed.

Lemma Intersection_empty_iff_witness :
  exists r, Intersection (mkS1Interval (-1) 1) (mkS1Interval 0 (-2)) = Some r /\
    is_empty r = negb (Intersects (mkS1Interval (-1) 1) (mkS1Interval 0 (-2))).
Proof.
  exact (Intersection_empty_iff (mkS1Interval (-1) 1) (mkS1Interval 0 (-2))
           eq_refl eq_refl eq_refl eq_refl).
Defined.

(** X17. The intersection of two valid intervals in normal form is valid
    and in normal form. *)
Theorem Intersection_well_formed (i y : S1Interval) :
  is_valid i = true -> is_valid y = true ->
  is_normalized i = true -> is_normalized y = true ->
  exists r, Intersection i y = Some r /\ is_valid r = true /\ is_normalized r = true.
Proof.
  intros Hi Hy Ni Ny.
  destruct (is_valid_in_range i Hi) as [Ril Rih].
  destruct (is_valid_in_range y Hy) as [Ryl Ryh].
  intersection_cases i y; (eexists; split; [reflexivity|]);
    try (split; [assumption | assumption]); try (split; reflexivity);
    (split; [apply is_valid_intro; assumption | unfold_all; order_cases]).
Qed.

Lemma Intersection_well_formed_witness :
  exists r, Intersection (mkS1Interval (-1) 1) (mkS1Interval 0 (-2)) = Some r /\
    is_valid r = true /\ is_normalized r = true.
Proof.
  exact (Intersection_well_formed (mkS1Interval (-1) 1) (mkS1Interval 0 (-2))
           eq_refl eq_refl eq_refl eq_refl).
Defined.

(** X18. Unless this interval contains both endpoints of [y] (the case in
    which one of the two operands is returned), the intersection of two
    valid intervals is contained in both of them. *)
Theorem Intersection_contained (i y : S1Interval) :
  is_valid i = true -> is_valid y = true ->
  FastContains i (lo y) && FastContains i (hi y) = false ->
  exists r, Intersection i y = Some r /\
    ContainsInterval i r = true /\ ContainsInterval y r = true.
Proof.
  intros Hi Hy Hb.
  intersection_cases i y; try discriminate;
    (eexists; split; [reflexivity|]); split; unfold_all; order_cases.
Qed.

Lemma Intersection_contained_witness :
  exists r, Intersection (mkS1Interval (-1) 1) (mkS1Interval 0 (-2)) = Some r /\
    ContainsInterval (mkS1Interval (-1) 1) r = true /\
    ContainsInterval (mkS1Interval 0 (-2)) r = true.
Proof.
  exact (Intersection_contained (mkS1Interval (-1) 1) (mkS1Interval 0 (-2))
           eq_refl eq_refl eq_refl).
Defined.

(** X19. For a valid interval, [Intersection] is idempotent and has the
    empty interval as absorbing element, on either side. *)
Theorem Intersection_laws (i : S1Interval) :
  is_valid i = true ->
  Intersection i i = Some i /\
  Intersection i Empty = Some Empty /\ Intersection Empty i = Some Empty.
Proof.
  intros Hi. split; [|split].
  - unfold Intersection.
    destruct (is_empty i) eqn:E; [now rewrite (is_empty_eq i E)|].
    replace (FastContains i (lo i)) with true by (symmetry; unfold_all; order_cases).
    replace (FastContains i (hi i)) with true by (symmetry; unfold_all; order_cases).
    now rewrite ltb_irrefl.
  - reflexivity.
  - unfold Intersection.
    destruct (is_empty i) eqn:E; [reflexivity|].
    rewrite !FastContains_Empty.
    destruct (FastContains i (lo Empty)); [reflexivity|].
    replace (Intersects Empty i) with false by reflexivity. reflexivity.
Qed.

Lemma Intersection_laws_witness :
  Intersection (mkS1Interval 3 (-3)) (mkS1Interval 3 (-3)) = Some (mkS1Interval 3 (-3)) /\
  Intersection (mkS1Interval 3 (-3)) Empty = Some Empty /\
  Intersection Empty (mkS1Interval 3 (-3)) = Some Empty.
Proof. exact (Intersection_laws (mkS1Interval 3 (-3)) eq_refl). Defined.

(** ** AddPoint and Project *)

(** X20. Adding a point [p] with [|p| <= pi] to a valid interval in
    normal form gives a valid interval in normal form that contains [p]
    and the original interval. *)
Theorem AddPoint_grows (i : S1Interval) (p : float) :
  is_valid i = true -> is_normalized i = true -> (fabs p <=? M_PI) = true ->
  exists j, AddPoint i p = Some j /\
    Contains j p = Some true /\ ContainsInterval j i = true /\
    is_valid j = true /\ is_normalized j = true.
Proof.
  intros Hv Hn Hp. unfold AddPoint. rewrite Hp. cbn [DCHECK bind].
  destruct (is_valid_in_range i Hv) as [Rl Rh].
  pose proof (canonical_not_minus_pi p) as Hq.
  pose proof (canonical_in_range p (fabs_in_range p Hp)) as Hr.
  destruct (FastContains i (canonical p)) eqn:Hc;
    [| destruct (is_empty i) eqn:He;
       [| destruct (PositiveDistance (canonical p) (lo i)
                      <? PositiveDistance (hi i) (canonical p)) ] ];
  (eexists; split; [reflexivity|];
   rewrite (Contains_canonical _ _ Hp); set (q := canonical p) in *;
   split; [f_equal|split; [|split]];
   try assumption; try (apply is_valid_intro; assumption);
   unfold_all; order_cases).
Qed.

Lemma AddPoint_grows_witness :
  exists j, AddPoint (mkS1Interval 0 1) (- M_PI) = Some j /\
    Contains j (- M_PI) = Some true /\ ContainsInterval j (mkS1Interval 0 1) = true /\
    is_valid j = true /\ is_normalized j = true.
Proof. exact (AddPoint_grows (mkS1Interval 0 1) (- M_PI) eq_refl eq_refl eq_refl). Defined.

(** X21. Adding a point [p] with [|p| <= pi] to a valid interval is the
    union with the singleton [FromPoint(p)]. *)
Theorem AddPoint_is_Union (i : S1Interval) (p : float) :
  is_valid i = true -> (fabs p <=? M_PI) = true ->
  AddPoint i p = Some (Union i (FromPoint p)).
Proof.
  intros Hv Hp. unfold AddPoint, Union, FromPoint. rewrite Hp. cbn [DCHECK bind].
  canonical_point p Hp q. unfold ARGS_CHECKED, set_lo, set_hi. proj_red.
  replace (is_empty (mkS1Interval q q)) with false by (symmetry; unfold_all; order_cases).
  destruct (FastContains i q) eqn:Hc.
  { replace (ContainsInterval i (mkS1Interval q q)) with true
      by (symmetry; unfold_all; order_cases).
    reflexivity. }
  destruct (is_empty i) eqn:He; [reflexivity|]. cbn [orb].
  replace (FastContains (mkS1Interval q q) (lo i)) with false
    by (symmetry; unfold_all; order_cases).
  destruct (PositiveDistance q (lo i) <? PositiveDistance (hi i) q); reflexivity.
Qed.

Lemma AddPoint_is_Union_witness :
  AddPoint (mkS1Interval 0 1) (- M_PI) = Some (Union (mkS1Interval 0 1) (FromPoint (- M_PI))).
Proof. exact (AddPoint_is_Union (mkS1Interval 0 1) (- M_PI) eq_refl eq_refl). Defined.

(** X22. For a non-empty valid interval in normal form and a point [p]
    with [|p| <= pi], [Project] returns a point of the interval, and
    projecting that point again returns it unchanged. *)
Theorem Project_in_interval (i : S1Interval) (p : float) :
  is_valid i = true -> is_normalized i = true -> is_empty i = false ->
  (fabs p <=? M_PI) = true ->
  exists r, Project i p = Some r /\ Contains i r = Some true /\ Project i r = Some r.
Proof.
  intros Hv Hn He Hp. unfold Project at 1. rewrite He, Hp. cbn [negb DCHECK bind].
  destruct (is_valid_in_range i Hv) as [Rl Rh].
  canonical_point p Hp q.
  assert (Hgen : forall r, in_range r -> (r =? - M_PI) = false ->
            FastContains i r = true ->
            Contains i r = Some true /\ Project i r = Some r).
  { intros r Rr Nr Cr. unfold Project, Contains. rewrite He, (fabs_intro r Rr).
    cbn [negb DCHECK bind]. unfold canonical. rewrite Nr, Cr. split; reflexivity. }
  destruct (FastContains i q) eqn:Hc.
  { exists q. split; [reflexivity|]. now apply Hgen. }
  destruct (PositiveDistance q (lo i) <? PositiveDistance (hi i) q);
  (eexists; split; [reflexivity|]; apply Hgen; [assumption| |]; unfold_all; order_cases).
Qed.

Lemma Project_in_interval_witness :
  exists r, Project (mkS1Interval 0 1) (- M_PI) = Some r /\
    Contains (mkS1Interval 0 1) r = Some true /\ Project (mkS1Interval 0 1) r = Some r.
Proof.
  exact (Project_in_interval (mkS1Interval 0 1) (- M_PI) eq_refl eq_refl eq_refl eq_refl).
Defined.

(** ** Complement *)

(** X23. The complement of a valid interval contains exactly the points
    with [|p| <= pi] that are not interior points of the interval. *)
Theorem Complement_points (i : S1Interval) (p : float) :
  is_valid i = true -> (fabs p <=? M_PI) = true ->
  exists b, InteriorContains i p = Some b /\
    Contains (Complement i) p = Some (negb b).
Proof.
  intros Hv Hp. unfold InteriorContains. rewrite Hp. cbn [DCHECK bind].
  pose proof (canonical_in_range p (fabs_in_range p Hp)) as Hr.
  unfold Complement.
  destruct (is_inverted i) eqn:E; (eexists; split; [reflexivity|]);
  rewrite (Contains_canonical _ _ Hp); set (q := canonical p) in *; f_equal;
  destruct (lo i =? hi i) eqn:E2; unfold_all; order_cases.
Qed.

Lemma Complement_points_witness :
  exists b, InteriorContains (mkS1Interval 0 1) 1 = Some b /\
    Contains (Complement (mkS1Interval 0 1)) 1 = Some (negb b).
Proof. exact (Complement_points (mkS1Interval 0 1) 1 eq_refl eq_refl). Defined.

(** X24. The complement of a valid interval in normal form is valid and
    in normal form, and unless the interval is a singleton the complement
    of its complement is the interval itself. *)
Theorem Complement_involution (i : S1Interval) :
  is_valid i = true -> is_normalized i = true ->
  is_valid (Complement i) = true /\ is_normalized (Complement i) = true /\
  ((lo i =? hi i) = false -> Complement (Complement i) = i).
Proof.
  intros Hv Hn. destruct (is_valid_in_range i Hv) as [Rl Rh]. unfold Complement.
  destruct (lo i =? hi i) eqn:E.
  - split; [reflexivity|]. split; [reflexivity|]. discriminate.
  - split; [apply is_valid_intro; assumption|]. split; [unfold_all; order_cases|].
    intros _. unfold ARGS_CHECKED. proj_red.
    replace (hi i =? lo i) with false by (symmetry; unfold_all; order_cases).
    destruct i; reflexivity.
Qed.

Lemma Complement_involution_witness :
  is_valid (Complement (mkS1Interval 3 (-3))) = true /\
  is_normalized (Complement (mkS1Interval 3 (-3))) = true /\
  Complement (Complement (mkS1Interval 3 (-3))) = mkS1Interval 3 (-3).
Proof.
  split; [|split].
  - exact (proj1 (Complement_involution (mkS1Interval 3 (-3)) eq_refl eq_refl)).
  - exact (proj1 (proj2 (Complement_involution (mkS1Interval 3 (-3)) eq_refl eq_refl))).
  - exact (proj2 (proj2 (Complement_involution (mkS1Interval 3 (-3)) eq_refl eq_refl))
             eq_refl).
Defined.

(** ** Lengths and distances *)

(** X25. The length of a valid interval is never NaN: it is [>= 0] when
    the interval is not inverted, and either [> 0] or exactly [-1] when it
    is inverted. *)
Theorem GetLength_sign (i : S1Interval) :
  is_valid i = true ->
  (is_inverted i = false -> (GetLength i >=? 0) = true) /\
  (is_inverted i = true -> (GetLength i >? 0) = true \/ GetLength i = -1).
Proof.
  intros Hv. destruct (is_valid_in_range i Hv) as [Hlo Hhi].
  destruct (sub_tests (lo i) (hi i) Hlo Hhi) as [Hge Hgt].
  unfold GetLength. split; intros Hn; unfold is_inverted, gtb in Hn.
  - replace (hi i - lo i >=? 0) with true by (rewrite Hge; symmetry; order_cases).
    rewrite Hge. order_cases.
  - replace (hi i - lo i >=? 0) with false by (rewrite Hge; symmetry; order_cases).
    destruct (hi i - lo i + 2 * M_PI >? 0) eqn:E; [left; exact E | right; reflexivity].
Qed.

Lemma GetLength_sign_witness :
  (GetLength (mkS1Interval 0 1) >=? 0) = true /\
  ((GetLength next_to_empty >? 0) = true \/ GetLength next_to_empty = -1).
Proof.
  split.
  - exact (proj1 (GetLength_sign (mkS1Interval 0 1) eq_refl) eq_refl).
  - exact (proj2 (GetLength_sign next_to_empty eq_refl) eq_refl).
Defined.

(** X26. For two numbers of [[-pi, pi]], [PositiveDistance] is never
    negative and never NaN, and it is [== 0] exactly when the two numbers
    are [==], or denote the same point as [pi] and [-pi] in this order. *)
Theorem PositiveDistance_sign (a b : float) :
  (fabs a <=? M_PI) = true -> (fabs b <=? M_PI) = true ->
  (PositiveDistance a b >=? 0) = true /\
  (PositiveDistance a b =? 0) = ((a =? b) || ((a =? M_PI) && (b =? - M_PI))).
Proof.
  intros Ha Hb. apply fabs_in_range in Ha, Hb.
  pose proof M_PI_in_range as Hpi.
  destruct (sub_tests a b Ha Hb) as [Hge _].
  destruct (sub_sign b a (in_range_finite b Hb) (in_range_finite a Ha)) as [Nd Sd].
  destruct (add_sign b M_PI Hb Hpi) as [Fs Ss].
  pose proof (sub_finite a M_PI Ha Hpi) as Ft.
  destruct (sub_sign a M_PI (in_range_finite a Ha) (in_range_finite _ Hpi)) as [Nt St].
  destruct (sub_sign (b + M_PI) (a - M_PI) Fs Ft) as [Nr Sr].
  destruct Fs as [Ns _].
  unfold PositiveDistance. rewrite Hge. unfold geb.
  destruct Ha as [Na Ra], Hb as [Nb Rb]. pose proof M_PI_pos.
  destruct (a <=? b) eqn:E.
  - rewrite (leb_F2Z 0 (b - a)), (eqb_F2Z (b - a) 0) by (assumption || apply zero_num).
    float2Z. rewrite F2Z_zero. lia.
  - rewrite (leb_F2Z 0 _), (eqb_F2Z _ 0) by (assumption || apply zero_num).
    float2Z. rewrite F2Z_zero. lia.
Qed.

Lemma PositiveDistance_sign_witness :
  (PositiveDistance M_PI (- M_PI) >=? 0) = true /\
  (PositiveDistance M_PI (- M_PI) =? 0)
    = ((M_PI =? - M_PI) || ((M_PI =? M_PI) && (- M_PI =? - M_PI))).
Proof. exact (PositiveDistance_sign M_PI (- M_PI) eq_refl eq_refl). Defined.

(** X27. The directed Hausdorff distance from a valid interval to itself,
    and to the full interval, is [0], whatever the validated constructor
    does. *)
Theorem GetDirectedHausdorffDistance_zero
    (ctor : float -> float -> option S1Interval) (i : S1Interval) :
  is_valid i = true ->
  GetDirectedHausdorffDistance ctor i i = Some 0 /\
  GetDirectedHausdorffDistance ctor i Full = Some 0.
Proof.
  intros Hv. unfold GetDirectedHausdorffDistance.
  replace (ContainsInterval i i) with true by (symmetry; unfold_all; order_cases).
  replace (ContainsInterval Full i) with true by (symmetry; unfold_all; order_cases).
  split; reflexivity.
Qed.

Lemma GetDirectedHausdorffDistance_zero_witness :
  GetDirectedHausdorffDistance (fun _ _ => None) (mkS1Interval 3 (-3)) (mkS1Interval 3 (-3))
    = Some 0 /\
  GetDirectedHausdorffDistance (fun _ _ => None) (mkS1Interval 3 (-3)) Full = Some 0.
Proof.
  exact (GetDirectedHausdorffDistance_zero (fun _ _ => None) (mkS1Interval 3 (-3)) eq_refl).
Defined.

(** X28. The centre of the complement of a valid singleton is a number
    that the singleton does not contain. *)
Theorem GetComplementCenter_singleton (i : S1Interval) :
  is_valid i = true -> (lo i =? hi i) = true ->
  FastContains i (GetComplementCenter i) = false.
Proof.
  intros Hv He. destruct (is_valid_in_range i Hv) as [Hlo Hhi].
  pose proof M_PI_in_range as Hpi.
  destruct (add_sign (hi i) M_PI Hhi Hpi) as [[Ns _] Ss].
  destruct (sub_sign (hi i) M_PI (in_range_finite _ Hhi) (in_range_finite _ Hpi))
    as [Nt St].
  unfold GetComplementCenter, neqb. rewrite He. cbn [negb].
  unfold FastContains, is_inverted, geb, gtb.
  replace (hi i <? lo i) with false by (symmetry; order_cases).
  destruct (hi i <=? 0) eqn:E.
  - rewrite (leb_F2Z (lo i) (hi i + M_PI)), (leb_F2Z (hi i + M_PI) (hi i))
      by auto with fnum.
    range_facts. float2Z. rewrite F2Z_zero in *. lia.
  - rewrite (leb_F2Z (lo i) (hi i - M_PI)), (leb_F2Z (hi i - M_PI) (hi i))
      by auto with fnum.
    range_facts. float2Z. rewrite F2Z_zero in *. lia.
Qed.

Lemma GetComplementCenter_singleton_witness :
  FastContains (mkS1Interval 1 1) (GetComplementCenter (mkS1Interval 1 1)) = false.
Proof. exact (GetComplementCenter_singleton (mkS1Interval 1 1) eq_refl eq_refl). Defined.
